(** * User progress repository (database/repositories/user-progress.repository)

    A shallow embedding of [UserProgressRepository] and of the part of the
    Prisma client it calls ([findUnique], [findMany], [upsert], [update] on
    the [userProgress] table), followed by the properties of the progress
    tracker that the repository is expected to have.

    Conventions.
    - The [Int] columns of the table ([currentStep], [timeSpentSecs],
      [hintsUsed], [attempts], the elements of [completedSteps]) are [Z];
      no upper bound is enforced by the repository.
    - A [Date] is the number of milliseconds since the epoch, a [Z].
    - The table has the compound unique key [userId_lessonId], so it is a
      finite map from [(userId, lessonId)] to rows.
    - Every repository method is a computation in the monad [Db]: it reads
      the environment of the call (the clock and the identifier the
      database hands out on creation), threads the table, and either
      returns a value or throws. *)

From stdpp Require Import gmap strings list fin_maps sorting.
From Stdlib Require Import ZArith Lia.

Open Scope Z_scope.

(** ** Entities and input types (database/types) *)

Record DbUserProgress := mkProgress {
  id : string;
  userId : string;
  lessonId : string;
  completedSteps : list Z;
  currentStep : Z;
  startedAt : Z;
  completedAt : option Z;
  timeSpentSecs : Z;
  hintsUsed : Z;
  attempts : Z
}.

(** Optional members ([field?: T]) are [option]s: [None] is [undefined]. *)
Record UpsertProgressInput := mkUpsertInput {
  in_userId : string;
  in_lessonId : string;
  in_currentStep : option Z;
  in_completedSteps : option (list Z);
  in_timeSpentSecs : option Z;
  in_hintsUsed : option Z;
  in_attempts : option Z
}.

Record Stats := mkStats {
  totalLessons : nat;
  completedLessons : nat;
  totalTimeSpent : Z;
  totalHintsUsed : Z
}.

(** ** The Prisma client on the [userProgress] table *)

Module Prisma.

Abbreviation Key := (string * string)%type.
Abbreviation Table := (gmap Key DbUserProgress).

(** What a call reads from the outside world. *)
Record Env := mkEnv {
  now : Z;          (* the clock: [new Date()] and the column default [now()] *)
  freshId : string  (* the identifier given to a row created by this call *)
}.

(** [update] on a missing row throws (Prisma's P2025, "record to update
    not found"); nothing else in the repository throws. *)
Inductive Error := NotFound.

(** Payload of [create]: the key and the columns the caller supplies. *)
Record CreateData := mkCreate {
  c_userId : string;
  c_lessonId : string;
  c_currentStep : option Z;
  c_completedSteps : option (list Z);
  c_timeSpentSecs : option Z;
  c_hintsUsed : option Z;
  c_attempts : option Z
}.

(** A numeric column in an [update] payload is either assigned or
    atomically incremented ([{ increment: d }]). *)
Inductive IntUpdate :=
| SetTo (v : Z)
| Increment (d : Z).

Record UpdateData := mkUpdate {
  u_currentStep : option IntUpdate;
  u_completedSteps : option (list Z);
  u_timeSpentSecs : option IntUpdate;
  u_hintsUsed : option IntUpdate;
  u_attempts : option IntUpdate;
  u_completedAt : option Z
}.

(** Modelled from the spec: the Prisma schema of the [UserProgress] model
    is not part of the sources; the column defaults are the ones the
    specification gives for creation ([currentStep = 0], [completedSteps]
    empty, the three counters [0], [completedAt] absent); [id] is assigned
    and [startedAt] is fixed at creation. *)
Definition createRow (e : Env) (c : CreateData) : DbUserProgress :=
  {| id := freshId e;
     userId := c_userId c;
     lessonId := c_lessonId c;
     completedSteps := default [] (c_completedSteps c);
     currentStep := default 0 (c_currentStep c);
     startedAt := now e;
     completedAt := None;
     timeSpentSecs := default 0 (c_timeSpentSecs c);
     hintsUsed := default 0 (c_hintsUsed c);
     attempts := default 0 (c_attempts c) |}.

Definition applyInt (old : Z) (u : option IntUpdate) : Z :=
  match u with
  | None => old
  | Some (SetTo v) => v
  | Some (Increment d) => old + d
  end.

(** Columns absent from the payload keep their value. *)
Definition updateRow (r : DbUserProgress) (u : UpdateData) : DbUserProgress :=
  {| id := id r;
     userId := userId r;
     lessonId := lessonId r;
     completedSteps := default (completedSteps r) (u_completedSteps u);
     currentStep := applyInt (currentStep r) (u_currentStep u);
     startedAt := startedAt r;
     completedAt := match u_completedAt u with
                    | Some d => Some d
                    | None => completedAt r
                    end;
     timeSpentSecs := applyInt (timeSpentSecs r) (u_timeSpentSecs u);
     hintsUsed := applyInt (hintsUsed r) (u_hintsUsed u);
     attempts := applyInt (attempts r) (u_attempts u) |}.

(** The monad of database calls. *)
Definition Db (A : Type) : Type := Env → Table → Table * (Error + A).

Definition ret {A} (a : A) : Db A := λ _ t, (t, inr a).

Definition bind {A B} (m : Db A) (k : A → Db B) : Db B :=
  λ e t, match m e t with
         | (t', inr a) => k a e t'
         | (t', inl err) => (t', inl err)
         end.

Definition throw {A} (err : Error) : Db A := λ _ t, (t, inl err).

#[export] Instance db_ret : MRet Db := @ret.
#[export] Instance db_bind : MBind Db := λ A B k m, bind m k.

Definition findUnique (k : Key) : Db (option DbUserProgress) :=
  λ _ t, (t, inr (t !! k)).

(** [findMany({ where: { userId } })]: the rows whose [userId] column is
    the given one. *)
Definition findMany (u : string) : Db (list DbUserProgress) :=
  λ _ t, (t, inr (filter (λ r, userId r = u) (map_to_list t).*2)).

Definition upsert (k : Key) (c : CreateData) (u : UpdateData) : Db DbUserProgress :=
  λ e t, match t !! k with
         | Some r => let r' := updateRow r u in (<[k := r']> t, inr r')
         | None => let r' := createRow e c in (<[k := r']> t, inr r')
         end.

Definition update (k : Key) (u : UpdateData) : Db DbUserProgress :=
  λ e t, match t !! k with
         | Some r => let r' := updateRow r u in (<[k := r']> t, inr r')
         | None => throw NotFound e t
         end.

(** [new Date()] *)
Definition newDate : Db Z := λ e t, (t, inr (now e)).

(** The order of [orderBy: { startedAt: 'desc' }]: [a] may come before [b]
    when [a] was started no earlier than [b]. *)
Definition startedAtDesc (a b : DbUserProgress) : Prop :=
  startedAt b ≤ startedAt a.

#[export] Instance startedAtDesc_dec a b : Decision (startedAtDesc a b).
Proof. unfold startedAtDesc. apply _. Defined.

(** [findMany({ where: { userId }, orderBy: { startedAt: 'desc' } })]: the
    rows of the user, most recently started first.  The order among rows
    started at the same time is the database's choice; here it is the one
    the sort leaves. *)
Definition findManyOrderBy (u : string) : Db (list DbUserProgress) :=
  λ _ t, (t, inr (merge_sort startedAtDesc
                    (filter (λ r, userId r = u) (map_to_list t).*2))).

End Prisma.

Import Prisma.

(** ** The repository *)

Module UserProgressRepository.

Definition mapToDbProgress (progress : DbUserProgress) : DbUserProgress :=
  {| id := id progress;
     userId := userId progress;
     lessonId := lessonId progress;
     completedSteps := completedSteps progress;
     currentStep := currentStep progress;
     startedAt := startedAt progress;
     completedAt := completedAt progress;
     timeSpentSecs := timeSpentSecs progress;
     hintsUsed := hintsUsed progress;
     attempts := attempts progress |}.

Definition getProgress (userId lessonId : string) : Db (option DbUserProgress) :=
  progress ← findUnique (userId, lessonId);
  mret (mapToDbProgress <$> progress).

Definition getAllProgress (userId : string) : Db (list DbUserProgress) :=
  progressList ← findManyOrderBy userId;
  mret (map mapToDbProgress progressList).

Definition upsertProgress (data : UpsertProgressInput) : Db DbUserProgress :=
  progress ← upsert (in_userId data, in_lessonId data)
    {| c_userId := in_userId data;
       c_lessonId := in_lessonId data;
       c_currentStep := Some (default 0 (in_currentStep data));
       c_completedSteps := Some (default [] (in_completedSteps data));
       c_timeSpentSecs := Some (default 0 (in_timeSpentSecs data));
       c_hintsUsed := Some (default 0 (in_hintsUsed data));
       c_attempts := Some (default 0 (in_attempts data)) |}
    {| u_currentStep := SetTo <$> in_currentStep data;
       u_completedSteps := in_completedSteps data;
       u_timeSpentSecs := Increment <$> in_timeSpentSecs data;
       u_hintsUsed := Increment <$> in_hintsUsed data;
       u_attempts := Increment <$> in_attempts data;
       u_completedAt := None |};
  mret (mapToDbProgress progress).

(** [currentSteps.includes(stepNumber)] *)
Definition includes (steps : list Z) (stepNumber : Z) : bool :=
  existsb (Z.eqb stepNumber) steps.

Definition markStepComplete (userId lessonId : string) (stepNumber : Z)
  : Db DbUserProgress :=
  existing ← findUnique (userId, lessonId);
  let currentSteps := default [] (completedSteps <$> existing) in
  let updatedSteps :=
    if includes currentSteps stepNumber
    then currentSteps
    else currentSteps ++ [stepNumber] in
  progress ← upsert (userId, lessonId)
    {| c_userId := userId;
       c_lessonId := lessonId;
       c_currentStep := Some (stepNumber + 1);
       c_completedSteps := Some [stepNumber];
       c_timeSpentSecs := None;
       c_hintsUsed := None;
       c_attempts := Some 1 |}
    {| u_currentStep :=
         Some (SetTo (Z.max (default 0 (currentStep <$> existing)) (stepNumber + 1)));
       u_completedSteps := Some updatedSteps;
       u_timeSpentSecs := None;
       u_hintsUsed := None;
       u_attempts := Some (Increment 1);
       u_completedAt := None |};
  mret (mapToDbProgress progress).

Definition addTimeSpent (userId lessonId : string) (seconds : Z) : Db unit :=
  _ ← upsert (userId, lessonId)
    {| c_userId := userId;
       c_lessonId := lessonId;
       c_currentStep := None;
       c_completedSteps := None;
       c_timeSpentSecs := Some seconds;
       c_hintsUsed := None;
       c_attempts := None |}
    {| u_currentStep := None;
       u_completedSteps := None;
       u_timeSpentSecs := Some (Increment seconds);
       u_hintsUsed := None;
       u_attempts := None;
       u_completedAt := None |};
  mret ().

Definition markLessonComplete (userId lessonId : string) : Db DbUserProgress :=
  date ← newDate;
  progress ← update (userId, lessonId)
    {| u_currentStep := None;
       u_completedSteps := None;
       u_timeSpentSecs := None;
       u_hintsUsed := None;
       u_attempts := None;
       u_completedAt := Some date |};
  mret (mapToDbProgress progress).

Definition getStats (userId : string) : Db Stats :=
  progressList ← findMany userId;
  let totalLessons := length progressList in
  let completedLessons :=
    length (filter (λ p, completedAt p ≠ None) progressList) in
  let totalTimeSpent :=
    fold_left (λ sum p, sum + timeSpentSecs p) progressList 0 in
  let totalHintsUsed :=
    fold_left (λ sum p, sum + hintsUsed p) progressList 0 in
  mret {| totalLessons := totalLessons;
          completedLessons := completedLessons;
          totalTimeSpent := totalTimeSpent;
          totalHintsUsed := totalHintsUsed |}.

End UserProgressRepository.

Import UserProgressRepository.

(** ** Running calls *)

(** The table a call leaves behind, whether it returned or threw. *)
Definition exec {A} (m : Db A) (e : Env) (t : Table) : Table := (m e t).1.

(** The same call made once per environment of [es], in order. *)
Fixpoint repeatCalls {A} (m : Db A) (es : list Env) (t : Table) : Table :=
  match es with
  | [] => t
  | e :: es' => repeatCalls m es' (exec m e t)
  end.

(** ** Record invariants of the data model *)

(** The largest completed step, if any. *)
Definition maxStep (steps : list Z) : option Z :=
  match steps with
  | [] => None
  | s :: rest => Some (fold_left Z.max rest s)
  end.

(** [currentStep ≥ max(completedSteps) + 1] whenever [completedSteps] is
    not empty, on a list of steps and a cursor. *)
Definition cursorPast (steps : list Z) (cursor : Z) : Prop :=
  match maxStep steps with
  | None => True
  | Some m => m + 1 ≤ cursor
  end.

#[export] Instance cursorPast_dec steps cursor : Decision (cursorPast steps cursor).
Proof. unfold cursorPast. destruct (maxStep steps); apply _. Defined.

Definition cursorPastCompleted (r : DbUserProgress) : Prop :=
  cursorPast (completedSteps r) (currentStep r).

#[export] Instance cursorPastCompleted_dec r : Decision (cursorPastCompleted r).
Proof. unfold cursorPastCompleted. apply _. Defined.

(** [completedSteps] holds no step number twice. *)
Definition noDuplicateSteps (r : DbUserProgress) : Prop :=
  NoDup (completedSteps r).

(** How often a step number occurs in a list of steps. *)
Definition occurrences (n : Z) (steps : list Z) : nat :=
  length (filter (λ s, s = n) steps).

(** The value of [attempts] under a key, [0] when there is no record. *)
Definition attemptsAt (k : Key) (t : Table) : Z :=
  default 0 (attempts <$> t !! k).

(** How often [n] occurs in the completed steps under a key, [0] when
    there is no record. *)
Definition occurrencesAt (k : Key) (n : Z) (t : Table) : nat :=
  default 0%nat (occurrences n ∘ completedSteps <$> t !! k).

(** The value of [timeSpentSecs] under a key, [0] when there is no record. *)
Definition timeSpentAt (k : Key) (t : Table) : Z :=
  default 0 (timeSpentSecs <$> t !! k).

(** ** Statistics of a user *)

(** The records of a user: the rows whose [userId] column is [u]. *)
Definition userRecords (u : string) (t : Table) : Table :=
  filter (λ kr, userId kr.2 = u) t.

(** The records among [m] with [completedAt] set. *)
Definition completedRecords (m : Table) : Table :=
  filter (λ kr, completedAt kr.2 ≠ None) m.

(** The sum of a column over the records of [m]. *)
Definition total (column : DbUserProgress → Z) (m : Table) : Z :=
  map_fold (λ _ r acc, column r + acc) 0 m.

Definition sumZ (xs : list Z) : Z := foldr Z.add 0 xs.

(** The table of the example: lesson ["A"] of user ["u"] completed with
    [100] seconds and [2] hints, lesson ["B"] of ["u"] not completed with
    [50] seconds and [1] hint, and a record of another user. *)
Definition statsExample : Table :=
  let t1 := exec (upsertProgress (mkUpsertInput "u" "A" None None (Some 100) (Some 2) None))
              (mkEnv 10 "a") ∅ in
  let t2 := exec (markLessonComplete "u" "A") (mkEnv 20 "-") t1 in
  let t3 := exec (upsertProgress (mkUpsertInput "u" "B" None None (Some 50) (Some 1) None))
              (mkEnv 30 "b") t2 in
  exec (addTimeSpent "v" "A" 7) (mkEnv 40 "c") t3.

(** ** Tables reached through the repository *)

(** Every row sits under the key made of its own [userId] and [lessonId]
    columns. *)
Definition keysMatch (t : Table) : Prop :=
  ∀ u l r, t !! (u, l) = Some r → userId r = u ∧ lessonId r = l.

(** A write made through the repository. *)
Inductive Call :=
| CallUpsert (data : UpsertProgressInput)
| CallStep (userId lessonId : string) (stepNumber : Z)
| CallTime (userId lessonId : string) (seconds : Z)
| CallComplete (userId lessonId : string).

(** The table after one write, and after a sequence of writes each made in
    its own environment. *)
Definition runCall (c : Call) (e : Env) (t : Table) : Table :=
  match c with
  | CallUpsert data => exec (upsertProgress data) e t
  | CallStep u l n => exec (markStepComplete u l n) e t
  | CallTime u l s => exec (addTimeSpent u l s) e t
  | CallComplete u l => exec (markLessonComplete u l) e t
  end.

Fixpoint runCalls (cs : list (Call * Env)) (t : Table) : Table :=
  match cs with
  | [] => t
  | (c, e) :: cs' => runCalls cs' (runCall c e t)
  end.

(** The key a write addresses. *)
Definition callKey (c : Call) : Key :=
  match c with
  | CallUpsert data => (in_userId data, in_lessonId data)
  | CallStep u l _ => (u, l)
  | CallTime u l _ => (u, l)
  | CallComplete u l => (u, l)
  end.

(** Writes that cannot store a list of steps or a cursor of the caller's
    choosing: everything but [upsertProgress]. *)
Definition stepwise (c : Call) : bool :=
  match c with
  | CallUpsert _ => false
  | _ => true
  end.

(** Writes that create the record when there is none: everything but
    [markLessonComplete]. *)
Definition creates (c : Call) : bool :=
  match c with
  | CallComplete _ _ => false
  | _ => true
  end.

(** The amounts a write adds to the counters are not negative. *)
Definition nonNegativeDeltas (c : Call) : Prop :=
  match c with
  | CallUpsert data =>
      0 ≤ default 0 (in_timeSpentSecs data) ∧
      0 ≤ default 0 (in_hintsUsed data) ∧
      0 ≤ default 0 (in_attempts data)
  | CallTime _ _ seconds => 0 ≤ seconds
  | _ => True
  end.

(** Both list invariants hold on every record of the table. *)
Definition recordsOk (t : Table) : Prop :=
  ∀ k r, t !! k = Some r → cursorPastCompleted r ∧ noDuplicateSteps r.

(** ** Unfolding lemmas: what each method does to the table *)

Lemma exec_eq {A} (m : Db A) e t t' x : m e t = (t', x) → exec m e t = t'.
Proof. intros H. unfold exec. by rewrite H. Qed.

Lemma mapToDbProgress_id r : mapToDbProgress r = r.
Proof. by destruct r. Qed.

Ltac run_db :=
  unfold markStepComplete, upsertProgress, addTimeSpent, markLessonComplete,
    getStats, getProgress, exec;
  unfold mbind, mret, db_bind, db_ret, bind, ret, findUnique, findMany,
    upsert, update, newDate, throw; simpl.

Lemma markStepComplete_existing u l n e t r :
  t !! (u, l) = Some r →
  markStepComplete u l n e t =
    let r' :=
      {| id := id r; userId := userId r; lessonId := lessonId r;
         completedSteps :=
           if includes (completedSteps r) n then completedSteps r
           else completedSteps r ++ [n];
         currentStep := Z.max (currentStep r) (n + 1);
         startedAt := startedAt r; completedAt := completedAt r;
         timeSpentSecs := timeSpentSecs r; hintsUsed := hintsUsed r;
         attempts := attempts r + 1 |} in
    (<[(u, l) := r']> t, inr r').
Proof. intros Hr. run_db. rewrite Hr. simpl. reflexivity. Qed.

Lemma markStepComplete_fresh u l n e t :
  t !! (u, l) = None →
  markStepComplete u l n e t =
    let r' :=
      {| id := freshId e; userId := u; lessonId := l;
         completedSteps := [n]; currentStep := n + 1;
         startedAt := now e; completedAt := None;
         timeSpentSecs := 0; hintsUsed := 0; attempts := 1 |} in
    (<[(u, l) := r']> t, inr r').
Proof. intros Hr. run_db. rewrite Hr. simpl. reflexivity. Qed.

Lemma upsertProgress_existing data e t r :
  t !! (in_userId data, in_lessonId data) = Some r →
  upsertProgress data e t =
    let r' :=
      {| id := id r; userId := userId r; lessonId := lessonId r;
         completedSteps := default (completedSteps r) (in_completedSteps data);
         currentStep := default (currentStep r) (in_currentStep data);
         startedAt := startedAt r; completedAt := completedAt r;
         timeSpentSecs := timeSpentSecs r + default 0 (in_timeSpentSecs data);
         hintsUsed := hintsUsed r + default 0 (in_hintsUsed data);
         attempts := attempts r + default 0 (in_attempts data) |} in
    (<[(in_userId data, in_lessonId data) := r']> t, inr r').
Proof.
  intros Hr. run_db. rewrite Hr. simpl.
  destruct data as [? ? [c|] [s|] [ts|] [h|] [a|]]; simpl;
    rewrite ?Z.add_0_r; reflexivity.
Qed.

Lemma upsertProgress_fresh data e t :
  t !! (in_userId data, in_lessonId data) = None →
  upsertProgress data e t =
    let r' :=
      {| id := freshId e; userId := in_userId data; lessonId := in_lessonId data;
         completedSteps := default [] (in_completedSteps data);
         currentStep := default 0 (in_currentStep data);
         startedAt := now e; completedAt := None;
         timeSpentSecs := default 0 (in_timeSpentSecs data);
         hintsUsed := default 0 (in_hintsUsed data);
         attempts := default 0 (in_attempts data) |} in
    (<[(in_userId data, in_lessonId data) := r']> t, inr r').
Proof. intros Hr. run_db. rewrite Hr. simpl. reflexivity. Qed.

Lemma addTimeSpent_existing u l secs e t r :
  t !! (u, l) = Some r →
  addTimeSpent u l secs e t =
    (<[(u, l) :=
        {| id := id r; userId := userId r; lessonId := lessonId r;
           completedSteps := completedSteps r; currentStep := currentStep r;
           startedAt := startedAt r; completedAt := completedAt r;
           timeSpentSecs := timeSpentSecs r + secs;
           hintsUsed := hintsUsed r; attempts := attempts r |}]> t, inr ()).
Proof. intros Hr. run_db. rewrite Hr. simpl. reflexivity. Qed.

Lemma addTimeSpent_fresh u l secs e t :
  t !! (u, l) = None →
  addTimeSpent u l secs e t =
    (<[(u, l) :=
        {| id := freshId e; userId := u; lessonId := l;
           completedSteps := []; currentStep := 0;
           startedAt := now e; completedAt := None;
           timeSpentSecs := secs; hintsUsed := 0; attempts := 0 |}]> t, inr ()).
Proof. intros Hr. run_db. rewrite Hr. simpl. reflexivity. Qed.

Lemma markLessonComplete_existing u l e t r :
  t !! (u, l) = Some r →
  markLessonComplete u l e t =
    let r' :=
      {| id := id r; userId := userId r; lessonId := lessonId r;
         completedSteps := completedSteps r; currentStep := currentStep r;
         startedAt := startedAt r; completedAt := Some (now e);
         timeSpentSecs := timeSpentSecs r; hintsUsed := hintsUsed r;
         attempts := attempts r |} in
    (<[(u, l) := r']> t, inr r').
Proof. intros Hr. run_db. rewrite Hr. simpl. reflexivity. Qed.

Lemma markLessonComplete_missing u l e t :
  t !! (u, l) = None → markLessonComplete u l e t = (t, inl NotFound).
Proof. intros Hr. run_db. rewrite Hr. reflexivity. Qed.

(** ** Lists of steps *)

Lemma includes_true_iff steps n : includes steps n = true ↔ n ∈ steps.
Proof.
  unfold includes. rewrite existsb_exists. split.
  - intros (x & Hin & Heq). apply Z.eqb_eq in Heq. subst x.
    by apply list_elem_of_In.
  - intros Hin. exists n. split; [by apply list_elem_of_In | apply Z.eqb_refl].
Qed.

Lemma includes_false_iff steps n : includes steps n = false ↔ n ∉ steps.
Proof.
  rewrite <- includes_true_iff. destruct (includes steps n); split; try done.
Qed.

Lemma occurrences_app n xs ys :
  occurrences n (xs ++ ys) = (occurrences n xs + occurrences n ys)%nat.
Proof. unfold occurrences. by rewrite filter_app, length_app. Qed.

Lemma occurrences_zero_iff n steps : occurrences n steps = 0%nat ↔ n ∉ steps.
Proof.
  unfold occurrences. induction steps as [|s steps IH]; simpl.
  - split; [intros _; apply not_elem_of_nil | done].
  - rewrite filter_cons. rewrite not_elem_of_cons. case_decide; simpl.
    + subst s. split; [lia | intros [? _]; done].
    + rewrite IH. split; [by intros ?; split; [congruence|] | by intros [_ ?]].
Qed.

Lemma occurrences_self n : occurrences n [n] = 1%nat.
Proof. unfold occurrences. rewrite filter_cons. by case_decide. Qed.

(** The list a [markStepComplete] stores holds [n] as often as before,
    and once when it did not hold it. *)
Lemma occurrences_updatedSteps n steps :
  occurrences n (if includes steps n then steps else steps ++ [n])
  = Nat.max 1 (occurrences n steps).
Proof.
  destruct (includes steps n) eqn:Hinc.
  - apply includes_true_iff in Hinc.
    destruct (occurrences n steps) eqn:Hocc; [|lia].
    apply occurrences_zero_iff in Hocc. done.
  - apply includes_false_iff, occurrences_zero_iff in Hinc.
    rewrite occurrences_app, occurrences_self, Hinc. done.
Qed.

(** ** Step completion *)

Lemma occurrencesAt_lookup k n t r :
  t !! k = Some r → occurrencesAt k n t = occurrences n (completedSteps r).
Proof. intros Hr. unfold occurrencesAt. by rewrite Hr. Qed.

Lemma attemptsAt_lookup k t r : t !! k = Some r → attemptsAt k t = attempts r.
Proof. intros Hr. unfold attemptsAt. by rewrite Hr. Qed.

(** One call: it never throws, and the row it returns is the row stored. *)
Lemma markStepComplete_step u l n e t :
  ∃ r1, markStepComplete u l n e t = (<[(u, l) := r1]> t, inr r1) ∧
        occurrences n (completedSteps r1) = Nat.max 1 (occurrencesAt (u, l) n t) ∧
        n + 1 ≤ currentStep r1 ∧
        attempts r1 = attemptsAt (u, l) t + 1.
Proof.
  unfold occurrencesAt, attemptsAt.
  destruct (t !! (u, l)) as [r|] eqn:Hr.
  - rewrite (markStepComplete_existing _ _ _ _ _ _ Hr). eexists. split; [done|].
    simpl. rewrite occurrences_updatedSteps. repeat split; lia.
  - rewrite (markStepComplete_fresh _ _ _ _ _ Hr). eexists. split; [done|].
    simpl. rewrite occurrences_self. repeat split; lia.
Qed.

Lemma markStepComplete_repeat_gen u l n es t :
  es ≠ [] →
  ∃ r', repeatCalls (markStepComplete u l n) es t !! (u, l) = Some r' ∧
        occurrences n (completedSteps r') = Nat.max 1 (occurrencesAt (u, l) n t) ∧
        n + 1 ≤ currentStep r' ∧
        attempts r' = attemptsAt (u, l) t + Z.of_nat (length es).
Proof.
  revert t. induction es as [|e es IH]; [done|]. intros t _.
  destruct (markStepComplete_step u l n e t) as (r1 & Hrun & Hocc & Hcur & Hatt).
  assert (Hlk : exec (markStepComplete u l n) e t !! (u, l) = Some r1).
  { unfold exec. rewrite Hrun. simpl. apply lookup_insert_eq. }
  destruct es as [|e' es'].
  - simpl. exists r1. split; [exact Hlk|]. split; [exact Hocc|]. split; [exact Hcur|].
    rewrite Hatt. reflexivity.
  - destruct (IH (exec (markStepComplete u l n) e t)) as (r' & Hlk' & Hocc' & Hcur' & Hatt');
      [done|].
    exists r'. split; [exact Hlk'|].
    rewrite (occurrencesAt_lookup _ _ _ _ Hlk) in Hocc'.
    rewrite (attemptsAt_lookup _ _ _ Hlk) in Hatt'.
    rewrite Hocc', Hatt', Hocc, Hatt.
    repeat split; [lia | lia |].
    change (length (e :: e' :: es')) with (S (length (e' :: es'))). lia.
Qed.

(** C1 (as amended). Any [k ≥ 1] calls of [markStepComplete(u, l, n)] with
    the same [n], starting with no record or with a record that holds [n]
    at most once in [completedSteps], leave [completedSteps] holding [n]
    exactly once, [currentStep ≥ n + 1], and [attempts] larger by exactly
    [k] than before ([0] when there was no record). *)
Theorem markStepComplete_repeated u l n es t :
  es ≠ [] →
  (∀ r, t !! (u, l) = Some r → (occurrences n (completedSteps r) ≤ 1)%nat) →
  ∃ r', repeatCalls (markStepComplete u l n) es t !! (u, l) = Some r' ∧
        occurrences n (completedSteps r') = 1%nat ∧
        n + 1 ≤ currentStep r' ∧
        attempts r' = attemptsAt (u, l) t + Z.of_nat (length es).
Proof.
  intros Hes Hocc0.
  destruct (markStepComplete_repeat_gen u l n es t Hes)
    as (r' & Hlk & Hocc & Hcur & Hatt).
  exists r'. repeat split; [done | | lia | done].
  rewrite Hocc. unfold occurrencesAt.
  destruct (t !! (u, l)) as [r|] eqn:Hr; simpl; [|done].
  specialize (Hocc0 r eq_refl). lia.
Qed.

Lemma markStepComplete_repeated_witness :
  let row := mkProgress "a" "u" "l" [4; 1] 5 10 None 0 0 2 in
  let t : Table := {[ ("u", "l") := row ]} in
  let es := [mkEnv 20 "b"; mkEnv 30 "c"; mkEnv 40 "d"] in
  ∃ r', repeatCalls (markStepComplete "u" "l" 4) es t !! ("u", "l") = Some r' ∧
        occurrences 4 (completedSteps r') = 1%nat ∧
        4 + 1 ≤ currentStep r' ∧
        attempts r' = attemptsAt ("u", "l") t + Z.of_nat 3.
Proof.
  intros row t es.
  apply (markStepComplete_repeated "u" "l" 4 es t).
  - discriminate.
  - intros r Hr. unfold t in Hr. rewrite lookup_singleton_eq in Hr.
    injection Hr as <-. vm_compute. lia.
Defined.

(** C1 (as stated) fails when the record already holds [n] twice, a state
    [upsertProgress] produces: after
    [upsertProgress({userId: "u", lessonId: "l", completedSteps: [2, 2]})]
    a call [markStepComplete("u", "l", 2)] finds [2] included and stores the
    list unchanged, so [2] occurs twice, not once. *)
Lemma markStepComplete_keeps_duplicates :
  let t := exec (upsertProgress (mkUpsertInput "u" "l" None (Some [2; 2]) None None None))
             (mkEnv 10 "a") ∅ in
  ∃ r', repeatCalls (markStepComplete "u" "l" 2) [mkEnv 20 "b"] t !! ("u", "l") = Some r' ∧
        completedSteps r' = [2; 2] ∧
        occurrences 2 (completedSteps r') = 2%nat.
Proof.
  exists (mkProgress "a" "u" "l" [2; 2] 3 10 None 0 0 1).
  split; [by vm_compute | by split].
Qed.

(** C2. On an existing record [markStepComplete] sets [currentStep] to
    [max(currentStep, stepNumber + 1)], so the cursor never decreases; and
    [markStepComplete(u, l, 0)] followed by [markStepComplete(u, l, 2)] on a
    fresh key gives [completedSteps = [0, 2]], [currentStep = 3],
    [attempts = 2]. *)
Theorem markStepComplete_cursor_max :
  (∀ u l n e t r,
     t !! (u, l) = Some r →
     ∃ r', markStepComplete u l n e t = (<[(u, l) := r']> t, inr r') ∧
           currentStep r' = Z.max (currentStep r) (n + 1) ∧
           currentStep r ≤ currentStep r') ∧
  (∀ u l e1 e2 t,
     t !! (u, l) = None →
     ∃ r1 r2 t1 t2,
       markStepComplete u l 0 e1 t = (t1, inr r1) ∧
       markStepComplete u l 2 e2 t1 = (t2, inr r2) ∧
       t2 !! (u, l) = Some r2 ∧
       completedSteps r2 = [0; 2] ∧ currentStep r2 = 3 ∧ attempts r2 = 2).
Proof.
  split.
  - intros u l n e t r Hr.
    rewrite (markStepComplete_existing _ _ _ _ _ _ Hr). eexists. split; [done|].
    simpl. lia.
  - intros u l e1 e2 t Hr.
    rewrite (markStepComplete_fresh _ _ _ _ _ Hr). simpl.
    do 4 eexists. split; [done|].
    erewrite markStepComplete_existing by apply lookup_insert_eq. simpl.
    split; [done|]. rewrite lookup_insert_eq. done.
Qed.

Lemma markStepComplete_cursor_max_witness :
  (∃ r', markStepComplete "u" "l" 1 (mkEnv 20 "b")
           {[ ("u", "l") := mkProgress "a" "u" "l" [6] 7 10 None 0 0 1 ]}
         = (<[("u", "l") := r']>
              {[ ("u", "l") := mkProgress "a" "u" "l" [6] 7 10 None 0 0 1 ]}, inr r') ∧
         currentStep r' = Z.max 7 (1 + 1) ∧ 7 ≤ currentStep r') ∧
  (∃ r1 r2 t1 t2,
     markStepComplete "u" "l" 0 (mkEnv 10 "a") ∅ = (t1, inr r1) ∧
     markStepComplete "u" "l" 2 (mkEnv 20 "b") t1 = (t2, inr r2) ∧
     t2 !! ("u", "l") = Some r2 ∧
     completedSteps r2 = [0; 2] ∧ currentStep r2 = 3 ∧ attempts r2 = 2).
Proof.
  destruct markStepComplete_cursor_max as [Hmax Hscenario]. split.
  - apply (Hmax "u" "l" 1 (mkEnv 20 "b")
             {[ ("u", "l") := mkProgress "a" "u" "l" [6] 7 10 None 0 0 1 ]}
             (mkProgress "a" "u" "l" [6] 7 10 None 0 0 1)).
    apply lookup_singleton_eq.
  - apply (Hscenario "u" "l" (mkEnv 10 "a") (mkEnv 20 "b") ∅). apply lookup_empty.
Defined.

(** ** Upsert: replaced fields and incremented counters *)

(** [upsertProgress] never throws; the row it returns is the row stored. *)
Lemma upsertProgress_step data e t :
  ∃ r', upsertProgress data e t = (<[(in_userId data, in_lessonId data) := r']> t, inr r') ∧
        (∀ c, in_currentStep data = Some c → currentStep r' = c) ∧
        (∀ s, in_completedSteps data = Some s → completedSteps r' = s) ∧
        timeSpentSecs r'
          = timeSpentAt (in_userId data, in_lessonId data) t
            + default 0 (in_timeSpentSecs data).
Proof.
  unfold timeSpentAt.
  destruct (t !! (in_userId data, in_lessonId data)) as [r|] eqn:Hr.
  - rewrite (upsertProgress_existing _ _ _ _ Hr). eexists. split; [done|]. simpl.
    repeat split; [by intros c -> | by intros s ->].
  - rewrite (upsertProgress_fresh _ _ _ Hr). eexists. split; [done|]. simpl.
    repeat split; [by intros c -> | by intros s ->].
Qed.

(** C3. [upsertProgress] replaces [currentStep] and [completedSteps] and
    increments the three counters.  On an existing record every field is
    as described (first part).  For any key: an input with
    [timeSpentSecs: 30] given twice adds [60] to [timeSpentSecs] ([60] in
    all on a key that had no record); an input with [currentStep: 3] given
    twice leaves [currentStep = 3]; and [currentStep: 5] followed by
    [currentStep: 3] leaves [currentStep = 3]. *)
Theorem upsertProgress_replace_and_increment :
  (∀ data e t r,
     t !! (in_userId data, in_lessonId data) = Some r →
     ∃ r', upsertProgress data e t
           = (<[(in_userId data, in_lessonId data) := r']> t, inr r') ∧
           currentStep r' = default (currentStep r) (in_currentStep data) ∧
           completedSteps r' = default (completedSteps r) (in_completedSteps data) ∧
           timeSpentSecs r' = timeSpentSecs r + default 0 (in_timeSpentSecs data) ∧
           hintsUsed r' = hintsUsed r + default 0 (in_hintsUsed data) ∧
           attempts r' = attempts r + default 0 (in_attempts data)) ∧
  (∀ data e1 e2 t,
     in_timeSpentSecs data = Some 30 →
     let k := (in_userId data, in_lessonId data) in
     ∃ r', exec (upsertProgress data) e2 (exec (upsertProgress data) e1 t) !! k = Some r' ∧
           timeSpentSecs r' = timeSpentAt k t + 60 ∧
           (t !! k = None → timeSpentSecs r' = 60)) ∧
  (∀ data e1 e2 t,
     in_currentStep data = Some 3 →
     let k := (in_userId data, in_lessonId data) in
     ∃ r', exec (upsertProgress data) e2 (exec (upsertProgress data) e1 t) !! k = Some r' ∧
           currentStep r' = 3) ∧
  (∀ d1 d2 e1 e2 t,
     in_userId d2 = in_userId d1 → in_lessonId d2 = in_lessonId d1 →
     in_currentStep d1 = Some 5 → in_currentStep d2 = Some 3 →
     let k := (in_userId d1, in_lessonId d1) in
     ∃ r', exec (upsertProgress d2) e2 (exec (upsertProgress d1) e1 t) !! k = Some r' ∧
           currentStep r' = 3).
Proof.
  split; [|split; [|split]].
  - intros data e t r Hr.
    rewrite (upsertProgress_existing _ _ _ _ Hr). eexists. split; [done|]. done.
  - intros data e1 e2 t H30 k. subst k.
    destruct (upsertProgress_step data e1 t) as (r1 & Hrun1 & _ & _ & Ht1).
    rewrite (exec_eq _ _ _ _ _ Hrun1).
    destruct (upsertProgress_step data e2 (<[(in_userId data, in_lessonId data) := r1]> t))
      as (r2 & Hrun2 & _ & _ & Ht2).
    rewrite (exec_eq _ _ _ _ _ Hrun2).
    exists r2. split; [apply lookup_insert_eq|].
    unfold timeSpentAt in Ht2 at 1. rewrite lookup_insert_eq in Ht2.
    rewrite H30 in Ht1, Ht2. simpl in Ht1, Ht2.
    split; [lia|]. intros Hnone. unfold timeSpentAt in Ht1. rewrite Hnone in Ht1.
    simpl in Ht1. lia.
  - intros data e1 e2 t H3 k. subst k.
    destruct (upsertProgress_step data e1 t) as (r1 & Hrun1 & _).
    rewrite (exec_eq _ _ _ _ _ Hrun1).
    destruct (upsertProgress_step data e2 (<[(in_userId data, in_lessonId data) := r1]> t))
      as (r2 & Hrun2 & Hc2 & _).
    rewrite (exec_eq _ _ _ _ _ Hrun2).
    exists r2. split; [apply lookup_insert_eq | by apply Hc2].
  - intros d1 d2 e1 e2 t Hu Hl H5 H3 k. subst k.
    destruct (upsertProgress_step d1 e1 t) as (r1 & Hrun1 & _).
    rewrite (exec_eq _ _ _ _ _ Hrun1).
    destruct (upsertProgress_step d2 e2 (<[(in_userId d1, in_lessonId d1) := r1]> t))
      as (r2 & Hrun2 & Hc2 & _).
    rewrite (exec_eq _ _ _ _ _ Hrun2). rewrite Hu, Hl.
    exists r2. split; [apply lookup_insert_eq | by apply Hc2].
Qed.

Lemma upsertProgress_replace_and_increment_witness :
  let row := mkProgress "a" "u" "l" [0; 1] 2 10 None 40 1 3 in
  let time30 := mkUpsertInput "u" "l" None None (Some 30) None None in
  let step3 := mkUpsertInput "u" "l" (Some 3) None None None None in
  let step5 := mkUpsertInput "u" "l" (Some 5) None None None None in
  let e1 := mkEnv 20 "b" in
  let e2 := mkEnv 30 "c" in
  (∃ r', upsertProgress time30 e1 {[ ("u", "l") := row ]}
         = (<[("u", "l") := r']> {[ ("u", "l") := row ]}, inr r') ∧
         currentStep r' = 2 ∧ completedSteps r' = [0; 1] ∧
         timeSpentSecs r' = 40 + 30 ∧ hintsUsed r' = 1 + 0 ∧ attempts r' = 3 + 0) ∧
  (∃ r', exec (upsertProgress time30) e2 (exec (upsertProgress time30) e1 ∅) !! ("u", "l")
         = Some r' ∧
         timeSpentSecs r' = timeSpentAt ("u", "l") ∅ + 60 ∧
         ((∅ : Table) !! ("u", "l") = None → timeSpentSecs r' = 60)) ∧
  (∃ r', exec (upsertProgress step3) e2 (exec (upsertProgress step3) e1 ∅) !! ("u", "l")
         = Some r' ∧ currentStep r' = 3) ∧
  (∃ r', exec (upsertProgress step3) e2 (exec (upsertProgress step5) e1 ∅) !! ("u", "l")
         = Some r' ∧ currentStep r' = 3).
Proof.
  intros row time30 step3 step5 e1 e2.
  destruct upsertProgress_replace_and_increment as (Hfields & Htime & Hsame & Hlower).
  split; [|split; [|split]].
  - apply (Hfields time30 e1 {[ ("u", "l") := row ]} row). apply lookup_singleton_eq.
  - apply (Htime time30 e1 e2 ∅). reflexivity.
  - apply (Hsame step3 e1 e2 ∅). reflexivity.
  - apply (Hlower step5 step3 e1 e2 ∅); reflexivity.
Defined.

(** ** Lesson completion *)

(** C4. [markLessonComplete] on a key without a record throws [NotFound]
    and leaves the table as it was (no record is created); on an existing
    record it sets [completedAt] to the current time, and the row returned
    is the row stored. *)
Theorem markLessonComplete_spec u l e t :
  (t !! (u, l) = None →
     markLessonComplete u l e t = (t, inl NotFound) ∧
     exec (markLessonComplete u l) e t = t ∧
     exec (markLessonComplete u l) e t !! (u, l) = None) ∧
  (∀ r, t !! (u, l) = Some r →
     ∃ r', markLessonComplete u l e t = (<[(u, l) := r']> t, inr r') ∧
           exec (markLessonComplete u l) e t !! (u, l) = Some r' ∧
           completedAt r' = Some (now e)).
Proof.
  split.
  - intros Hr. rewrite (exec_eq _ _ _ _ _ (markLessonComplete_missing _ _ e _ Hr)).
    by rewrite (markLessonComplete_missing _ _ _ _ Hr).
  - intros r Hr. pose proof (markLessonComplete_existing _ _ e _ _ Hr) as Hrun.
    simpl in Hrun. rewrite (exec_eq _ _ _ _ _ Hrun), Hrun.
    eexists. split; [done|]. split; [apply lookup_insert_eq | done].
Qed.

Lemma markLessonComplete_spec_witness :
  let row := mkProgress "a" "u" "l" [0] 1 10 None 0 0 1 in
  (markLessonComplete "u" "l" (mkEnv 50 "b") ∅ = (∅, inl NotFound) ∧
   exec (markLessonComplete "u" "l") (mkEnv 50 "b") ∅ = ∅ ∧
   exec (markLessonComplete "u" "l") (mkEnv 50 "b") ∅ !! ("u", "l") = None) ∧
  (∃ r', markLessonComplete "u" "l" (mkEnv 50 "b") {[ ("u", "l") := row ]}
         = (<[("u", "l") := r']> {[ ("u", "l") := row ]}, inr r') ∧
         exec (markLessonComplete "u" "l") (mkEnv 50 "b") {[ ("u", "l") := row ]}
           !! ("u", "l") = Some r' ∧
         completedAt r' = Some 50).
Proof.
  intros row. split.
  - destruct (markLessonComplete_spec "u" "l" (mkEnv 50 "b") ∅) as [Hmissing _].
    apply Hmissing. apply lookup_empty.
  - destruct (markLessonComplete_spec "u" "l" (mkEnv 50 "b") {[ ("u", "l") := row ]})
      as [_ Hexisting].
    apply (Hexisting row). apply lookup_singleton_eq.
Defined.

(** ** Arguments are not validated *)

(** C5 (as stated) fails: [addTimeSpent("u", "l", -5)] on an empty table
    is not rejected; it returns normally and the upsert creates a record
    with [timeSpentSecs = -5].  And [markStepComplete("u", "l", -1)] is not
    rejected either: it returns a record with [completedSteps = [-1]]. *)
Lemma negative_arguments_reach_the_store :
  addTimeSpent "u" "l" (-5) (mkEnv 10 "a") ∅
    = ({[ ("u", "l") := mkProgress "a" "u" "l" [] 0 10 None (-5) 0 0 ]}, inr ()) ∧
  markStepComplete "u" "l" (-1) (mkEnv 10 "a") ∅
    = ({[ ("u", "l") := mkProgress "a" "u" "l" [-1] 0 10 None 0 0 1 ]},
       inr (mkProgress "a" "u" "l" [-1] 0 10 None 0 0 1)).
Proof. split; reflexivity. Qed.

(** C5 (as amended). Neither method validates its numeric argument.  For
    every [seconds < 0], [addTimeSpent] returns normally after an upsert
    that adds [seconds] to [timeSpentSecs] (creating the record with
    [timeSpentSecs = seconds] when there was none); for every
    [stepNumber < 0], [markStepComplete] returns normally with a record
    whose [completedSteps] holds [stepNumber]. *)
Theorem negative_arguments_are_stored u l e t :
  (∀ seconds, seconds < 0 →
     ∃ r', addTimeSpent u l seconds e t = (<[(u, l) := r']> t, inr ()) ∧
           timeSpentSecs r' = timeSpentAt (u, l) t + seconds ∧
           exec (addTimeSpent u l seconds) e t ≠ t) ∧
  (∀ stepNumber, stepNumber < 0 →
     ∃ r', markStepComplete u l stepNumber e t = (<[(u, l) := r']> t, inr r') ∧
           stepNumber ∈ completedSteps r' ∧
           exec (markStepComplete u l stepNumber) e t ≠ t).
Proof.
  unfold timeSpentAt. split.
  - intros seconds Hneg. destruct (t !! (u, l)) as [r|] eqn:Hr.
    + rewrite (exec_eq _ _ _ _ _ (addTimeSpent_existing _ _ seconds e _ _ Hr)).
      rewrite (addTimeSpent_existing _ _ _ _ _ _ Hr). eexists. split; [done|].
      split; [done|]. intros Heq.
      assert (Hlk := lookup_insert_eq t (u, l)
        {| id := id r; userId := userId r; lessonId := lessonId r;
           completedSteps := completedSteps r; currentStep := currentStep r;
           startedAt := startedAt r; completedAt := completedAt r;
           timeSpentSecs := timeSpentSecs r + seconds;
           hintsUsed := hintsUsed r; attempts := attempts r |}).
      rewrite Heq, Hr in Hlk. injection Hlk as Hlk.
      apply (f_equal timeSpentSecs) in Hlk. simpl in Hlk. lia.
    + rewrite (exec_eq _ _ _ _ _ (addTimeSpent_fresh _ _ seconds e _ Hr)).
      rewrite (addTimeSpent_fresh _ _ _ _ _ Hr). eexists. split; [done|].
      split; [simpl; lia|]. intros Heq.
      apply (f_equal (λ m : Table, m !! (u, l))) in Heq.
      rewrite lookup_insert_eq, Hr in Heq. discriminate.
  - intros n Hneg.
    destruct (markStepComplete_step u l n e t) as (r1 & Hrun & Hocc & _ & Hatt).
    rewrite (exec_eq _ _ _ _ _ Hrun), Hrun. exists r1. split; [done|]. split.
    + destruct (decide (n ∈ completedSteps r1)) as [Hin|Hnin]; [done|].
      apply occurrences_zero_iff in Hnin. lia.
    + intros Heq. apply (f_equal (attemptsAt (u, l))) in Heq.
      rewrite (attemptsAt_lookup _ _ r1) in Heq by apply lookup_insert_eq. lia.
Qed.

Lemma negative_arguments_are_stored_witness :
  (∃ r', addTimeSpent "u" "l" (-5) (mkEnv 10 "a") ∅ = (<[("u", "l") := r']> ∅, inr ()) ∧
         timeSpentSecs r' = timeSpentAt ("u", "l") ∅ + -5 ∧
         exec (addTimeSpent "u" "l" (-5)) (mkEnv 10 "a") ∅ ≠ ∅) ∧
  (∃ r', markStepComplete "u" "l" (-1) (mkEnv 10 "a") ∅ = (<[("u", "l") := r']> ∅, inr r') ∧
         -1 ∈ completedSteps r' ∧
         exec (markStepComplete "u" "l" (-1)) (mkEnv 10 "a") ∅ ≠ ∅).
Proof.
  destruct (negative_arguments_are_stored "u" "l" (mkEnv 10 "a") ∅) as [Htime Hstep].
  split; [apply (Htime (-5)); lia | apply (Hstep (-1)); lia].
Defined.

(** ** The cursor invariant *)

Lemma fold_left_max_le steps s b :
  fold_left Z.max steps s ≤ b ↔ s ≤ b ∧ Forall (λ x, x ≤ b) steps.
Proof.
  revert s. induction steps as [|x steps IH]; intros s; simpl.
  - split; [intros ?; split; [done | constructor] | by intros [? _]].
  - rewrite IH, Forall_cons. split.
    + intros [Hmax Hall]. repeat split; [lia | lia | done].
    + intros (Hs & Hx & Hall). split; [lia | done].
Qed.

(** The invariant says that every completed step is below the cursor. *)
Lemma cursorPast_Forall steps cursor :
  cursorPast steps cursor ↔ Forall (λ s, s + 1 ≤ cursor) steps.
Proof.
  unfold cursorPast. destruct steps as [|s steps]; simpl.
  - split; [constructor | done].
  - rewrite Forall_cons.
    assert (Hle : fold_left Z.max steps s + 1 ≤ cursor
                  ↔ fold_left Z.max steps s ≤ cursor - 1) by lia.
    rewrite Hle, fold_left_max_le. split.
    + intros [Hs Hall]. split; [lia|].
      eapply Forall_impl; [exact Hall|]. simpl. intros; lia.
    + intros [Hs Hall]. split; [lia|].
      eapply Forall_impl; [exact Hall|]. simpl. intros; lia.
Qed.

Lemma cursorPast_updatedSteps steps cursor n :
  cursorPast steps cursor →
  cursorPast (if includes steps n then steps else steps ++ [n])
             (Z.max cursor (n + 1)).
Proof.
  rewrite !cursorPast_Forall. intros Hall.
  assert (Hall' : Forall (λ s, s + 1 ≤ Z.max cursor (n + 1)) steps).
  { eapply Forall_impl; [exact Hall|]. simpl. intros; lia. }
  destruct (includes steps n); [done|].
  apply Forall_app. split; [done|]. constructor; [lia | constructor].
Qed.

(** C6 (as stated) fails for [upsertProgress]: after
    [markStepComplete("u", "l", 5)] the record has [completedSteps = [5]]
    and [currentStep = 6]; [upsertProgress({userId: "u", lessonId: "l",
    currentStep: 0})] then stores [currentStep = 0] next to
    [completedSteps = [5]]. *)
Lemma upsertProgress_breaks_cursor_invariant :
  let t := exec (markStepComplete "u" "l" 5) (mkEnv 10 "a") ∅ in
  let data := mkUpsertInput "u" "l" (Some 0) None None None None in
  (∃ r, t !! ("u", "l") = Some r ∧ cursorPastCompleted r) ∧
  (∃ r', exec (upsertProgress data) (mkEnv 20 "b") t !! ("u", "l") = Some r' ∧
         completedSteps r' = [5] ∧ currentStep r' = 0 ∧
         ¬ cursorPastCompleted r').
Proof.
  split.
  - exists (mkProgress "a" "u" "l" [5] 6 10 None 0 0 1).
    split; [by vm_compute | by vm_compute].
  - exists (mkProgress "a" "u" "l" [5] 0 10 None 0 0 1).
    split; [by vm_compute|]. repeat split. by vm_compute.
Qed.

(** C6 (as amended). Starting from a record on which
    [currentStep ≥ max(completedSteps) + 1], the record after
    [markStepComplete], [addTimeSpent] or [markLessonComplete] satisfies it
    again.  [upsertProgress] stores the [currentStep] and [completedSteps] it
    is given as they are: the record after it satisfies the invariant
    exactly when the stored pair (the supplied values, the old ones where
    none is supplied) does, hence whenever the input supplies neither. *)
Theorem cursor_invariant_preserved u l e t r :
  t !! (u, l) = Some r →
  cursorPastCompleted r →
  (∀ n, ∃ r', exec (markStepComplete u l n) e t !! (u, l) = Some r' ∧
              cursorPastCompleted r') ∧
  (∀ seconds, ∃ r', exec (addTimeSpent u l seconds) e t !! (u, l) = Some r' ∧
                    cursorPastCompleted r') ∧
  (∃ r', exec (markLessonComplete u l) e t !! (u, l) = Some r' ∧
         cursorPastCompleted r') ∧
  (∀ data, in_userId data = u → in_lessonId data = l →
     ∃ r', exec (upsertProgress data) e t !! (u, l) = Some r' ∧
           (cursorPastCompleted r' ↔
              cursorPast (default (completedSteps r) (in_completedSteps data))
                         (default (currentStep r) (in_currentStep data))) ∧
           (in_currentStep data = None → in_completedSteps data = None →
              cursorPastCompleted r')).
Proof.
  intros Hr Hinv. split; [|split; [|split]].
  - intros n. pose proof (markStepComplete_existing _ _ n e _ _ Hr) as Hrun.
    simpl in Hrun. rewrite (exec_eq _ _ _ _ _ Hrun), lookup_insert_eq.
    eexists. split; [done|]. by apply cursorPast_updatedSteps.
  - intros seconds. pose proof (addTimeSpent_existing _ _ seconds e _ _ Hr) as Hrun.
    rewrite (exec_eq _ _ _ _ _ Hrun), lookup_insert_eq.
    eexists. split; [done|]. exact Hinv.
  - pose proof (markLessonComplete_existing _ _ e _ _ Hr) as Hrun.
    simpl in Hrun. rewrite (exec_eq _ _ _ _ _ Hrun), lookup_insert_eq.
    eexists. split; [done|]. exact Hinv.
  - intros data <- <-. pose proof (upsertProgress_existing _ e _ _ Hr) as Hrun.
    simpl in Hrun. rewrite (exec_eq _ _ _ _ _ Hrun), lookup_insert_eq.
    eexists. split; [done|]. split; [done|].
    intros Hc Hs. unfold cursorPastCompleted. simpl. by rewrite Hc, Hs.
Qed.

Lemma cursor_invariant_preserved_witness :
  let row := mkProgress "a" "u" "l" [0; 4] 5 10 None 0 0 2 in
  let t : Table := {[ ("u", "l") := row ]} in
  let e := mkEnv 20 "b" in
  (∀ n, ∃ r', exec (markStepComplete "u" "l" n) e t !! ("u", "l") = Some r' ∧
              cursorPastCompleted r') ∧
  (∀ seconds, ∃ r', exec (addTimeSpent "u" "l" seconds) e t !! ("u", "l") = Some r' ∧
                    cursorPastCompleted r') ∧
  (∃ r', exec (markLessonComplete "u" "l") e t !! ("u", "l") = Some r' ∧
         cursorPastCompleted r') ∧
  (∀ data, in_userId data = "u" → in_lessonId data = "l" →
     ∃ r', exec (upsertProgress data) e t !! ("u", "l") = Some r' ∧
           (cursorPastCompleted r' ↔
              cursorPast (default [0; 4] (in_completedSteps data))
                         (default 5 (in_currentStep data))) ∧
           (in_currentStep data = None → in_completedSteps data = None →
              cursorPastCompleted r')).
Proof.
  intros row t e.
  apply (cursor_invariant_preserved "u" "l" e t row).
  - apply lookup_singleton_eq.
  - unfold cursorPastCompleted, cursorPast. simpl. lia.
Defined.

(** ** The completion timestamp *)

(** C7 (as stated) fails: a second [markLessonComplete] on the same key
    overwrites [completedAt].  With the clock at [100] for the first call
    and at [200] for the second, [completedAt] is [100] after the first call
    and [200], not [100], after the second. *)
Lemma markLessonComplete_overwrites_completedAt :
  let t := exec (markStepComplete "u" "l" 0) (mkEnv 10 "a") ∅ in
  let t1 := exec (markLessonComplete "u" "l") (mkEnv 100 "b") t in
  let t2 := exec (markLessonComplete "u" "l") (mkEnv 200 "c") t1 in
  (completedAt <$> t1 !! ("u", "l")) = Some (Some 100) ∧
  (completedAt <$> t2 !! ("u", "l")) = Some (Some 200).
Proof. split; by vm_compute. Qed.

(** C7 (as amended). Once [completedAt] is set on a record, no operation
    clears it: [upsertProgress], [markStepComplete] and [addTimeSpent] leave
    it as it is, and [markLessonComplete] replaces it by the time of the
    call, so after a second [markLessonComplete] it is the time of that
    second call, which is not earlier when the clock has not gone back. *)
Theorem completedAt_once_set u l e t r d :
  t !! (u, l) = Some r →
  completedAt r = Some d →
  (∀ data, in_userId data = u → in_lessonId data = l →
     ∃ r', exec (upsertProgress data) e t !! (u, l) = Some r' ∧
           completedAt r' = Some d) ∧
  (∀ n, ∃ r', exec (markStepComplete u l n) e t !! (u, l) = Some r' ∧
              completedAt r' = Some d) ∧
  (∀ seconds, ∃ r', exec (addTimeSpent u l seconds) e t !! (u, l) = Some r' ∧
                    completedAt r' = Some d) ∧
  (∃ r', exec (markLessonComplete u l) e t !! (u, l) = Some r' ∧
         completedAt r' = Some (now e) ∧
         (d ≤ now e → ∃ d', completedAt r' = Some d' ∧ d ≤ d')).
Proof.
  intros Hr Hd. split; [|split; [|split]].
  - intros data <- <-. pose proof (upsertProgress_existing _ e _ _ Hr) as Hrun.
    simpl in Hrun. rewrite (exec_eq _ _ _ _ _ Hrun), lookup_insert_eq.
    eexists. split; [done|]. exact Hd.
  - intros n. pose proof (markStepComplete_existing _ _ n e _ _ Hr) as Hrun.
    simpl in Hrun. rewrite (exec_eq _ _ _ _ _ Hrun), lookup_insert_eq.
    eexists. split; [done|]. exact Hd.
  - intros seconds. pose proof (addTimeSpent_existing _ _ seconds e _ _ Hr) as Hrun.
    rewrite (exec_eq _ _ _ _ _ Hrun), lookup_insert_eq.
    eexists. split; [done|]. exact Hd.
  - pose proof (markLessonComplete_existing _ _ e _ _ Hr) as Hrun.
    simpl in Hrun. rewrite (exec_eq _ _ _ _ _ Hrun), lookup_insert_eq.
    eexists. split; [done|]. split; [done|].
    intros Hle. exists (now e). done.
Qed.

Lemma completedAt_once_set_witness :
  let row := mkProgress "a" "u" "l" [0] 1 10 (Some 100) 0 0 1 in
  let t : Table := {[ ("u", "l") := row ]} in
  let e := mkEnv 200 "b" in
  (∀ data, in_userId data = "u" → in_lessonId data = "l" →
     ∃ r', exec (upsertProgress data) e t !! ("u", "l") = Some r' ∧
           completedAt r' = Some 100) ∧
  (∀ n, ∃ r', exec (markStepComplete "u" "l" n) e t !! ("u", "l") = Some r' ∧
              completedAt r' = Some 100) ∧
  (∀ seconds, ∃ r', exec (addTimeSpent "u" "l" seconds) e t !! ("u", "l") = Some r' ∧
                    completedAt r' = Some 100) ∧
  (∃ r', exec (markLessonComplete "u" "l") e t !! ("u", "l") = Some r' ∧
         completedAt r' = Some 200 ∧
         (100 ≤ 200 → ∃ d', completedAt r' = Some d' ∧ 100 ≤ d')).
Proof.
  intros row t e.
  apply (completedAt_once_set "u" "l" e t row 100).
  - apply lookup_singleton_eq.
  - reflexivity.
Defined.

(** ** Duplicates in the completed steps *)

Lemma NoDup_updatedSteps steps n :
  NoDup steps → NoDup (if includes steps n then steps else steps ++ [n]).
Proof.
  intros Hnd. destruct (includes steps n) eqn:Hinc; [done|].
  apply includes_false_iff in Hinc.
  apply NoDup_app. split; [done|]. split.
  - intros x Hx Hxn. apply list_elem_of_singleton in Hxn. by subst x.
  - apply NoDup_singleton.
Qed.

(** C9 (as stated) fails for [upsertProgress]: on a record without
    duplicates, [upsertProgress({userId: "u", lessonId: "l",
    completedSteps: [1, 1]})] stores the list [[1, 1]]. *)
Lemma upsertProgress_stores_duplicates :
  let t := exec (markStepComplete "u" "l" 0) (mkEnv 10 "a") ∅ in
  let data := mkUpsertInput "u" "l" None (Some [1; 1]) None None None in
  (∃ r, t !! ("u", "l") = Some r ∧ noDuplicateSteps r) ∧
  (∃ r', exec (upsertProgress data) (mkEnv 20 "b") t !! ("u", "l") = Some r' ∧
         completedSteps r' = [1; 1] ∧ ¬ noDuplicateSteps r').
Proof.
  split.
  - exists (mkProgress "a" "u" "l" [0] 1 10 None 0 0 1).
    split; [by vm_compute|]. unfold noDuplicateSteps. simpl. apply NoDup_singleton.
  - exists (mkProgress "a" "u" "l" [1; 1] 1 10 None 0 0 1).
    split; [by vm_compute|]. split; [done|].
    unfold noDuplicateSteps. simpl. intros Hnd.
    apply NoDup_cons in Hnd as [Hnin _]. apply Hnin. by left.
Qed.

(** C9 (as amended). Starting from a record whose [completedSteps] has no
    duplicates, the record after [markStepComplete] (and after
    [addTimeSpent] or [markLessonComplete], which do not touch the list)
    has none; the record after [upsertProgress] has none provided the
    [completedSteps] of the input, when supplied, has none, since that list
    is stored as it is. *)
Theorem no_duplicates_preserved u l e t r :
  t !! (u, l) = Some r →
  noDuplicateSteps r →
  (∀ n, ∃ r', exec (markStepComplete u l n) e t !! (u, l) = Some r' ∧
              noDuplicateSteps r') ∧
  (∀ data, in_userId data = u → in_lessonId data = l →
     (∀ steps, in_completedSteps data = Some steps → NoDup steps) →
     ∃ r', exec (upsertProgress data) e t !! (u, l) = Some r' ∧
           noDuplicateSteps r') ∧
  (∀ seconds, ∃ r', exec (addTimeSpent u l seconds) e t !! (u, l) = Some r' ∧
                    noDuplicateSteps r') ∧
  (∃ r', exec (markLessonComplete u l) e t !! (u, l) = Some r' ∧
         noDuplicateSteps r').
Proof.
  intros Hr Hnd. split; [|split; [|split]].
  - intros n. pose proof (markStepComplete_existing _ _ n e _ _ Hr) as Hrun.
    simpl in Hrun. rewrite (exec_eq _ _ _ _ _ Hrun), lookup_insert_eq.
    eexists. split; [done|]. by apply NoDup_updatedSteps.
  - intros data <- <- Hsteps. pose proof (upsertProgress_existing _ e _ _ Hr) as Hrun.
    simpl in Hrun. rewrite (exec_eq _ _ _ _ _ Hrun), lookup_insert_eq.
    eexists. split; [done|]. unfold noDuplicateSteps. simpl.
    destruct (in_completedSteps data) as [steps|]; simpl; [by apply Hsteps | done].
  - intros seconds. pose proof (addTimeSpent_existing _ _ seconds e _ _ Hr) as Hrun.
    rewrite (exec_eq _ _ _ _ _ Hrun), lookup_insert_eq.
    eexists. split; [done|]. exact Hnd.
  - pose proof (markLessonComplete_existing _ _ e _ _ Hr) as Hrun.
    simpl in Hrun. rewrite (exec_eq _ _ _ _ _ Hrun), lookup_insert_eq.
    eexists. split; [done|]. exact Hnd.
Qed.

Lemma no_duplicates_preserved_witness :
  let row := mkProgress "a" "u" "l" [0; 4] 5 10 None 0 0 2 in
  let t : Table := {[ ("u", "l") := row ]} in
  let e := mkEnv 20 "b" in
  (∀ n, ∃ r', exec (markStepComplete "u" "l" n) e t !! ("u", "l") = Some r' ∧
              noDuplicateSteps r') ∧
  (∀ data, in_userId data = "u" → in_lessonId data = "l" →
     (∀ steps, in_completedSteps data = Some steps → NoDup steps) →
     ∃ r', exec (upsertProgress data) e t !! ("u", "l") = Some r' ∧
           noDuplicateSteps r') ∧
  (∀ seconds, ∃ r', exec (addTimeSpent "u" "l" seconds) e t !! ("u", "l") = Some r' ∧
                    noDuplicateSteps r') ∧
  (∃ r', exec (markLessonComplete "u" "l") e t !! ("u", "l") = Some r' ∧
         noDuplicateSteps r').
Proof.
  intros row t e.
  apply (no_duplicates_preserved "u" "l" e t row).
  - apply lookup_singleton_eq.
  - unfold noDuplicateSteps. simpl. apply (bool_decide_unpack _). reflexivity.
Defined.

(** ** What a step completion leaves alone *)

(** C10. On an existing record [markStepComplete] changes only
    [completedSteps], [currentStep] and [attempts]: the other seven fields
    of the record are as before, and so is the record (or its absence)
    under every other key. *)
Theorem markStepComplete_frame u l n e t r :
  t !! (u, l) = Some r →
  ∃ t' r', markStepComplete u l n e t = (t', inr r') ∧
           t' !! (u, l) = Some r' ∧
           id r' = id r ∧ userId r' = userId r ∧ lessonId r' = lessonId r ∧
           startedAt r' = startedAt r ∧ completedAt r' = completedAt r ∧
           timeSpentSecs r' = timeSpentSecs r ∧ hintsUsed r' = hintsUsed r ∧
           (∀ k, k ≠ (u, l) → t' !! k = t !! k).
Proof.
  intros Hr. rewrite (markStepComplete_existing _ _ _ _ _ _ Hr). simpl.
  do 2 eexists. split; [done|]. split; [apply lookup_insert_eq|].
  repeat split. intros k Hk. by apply lookup_insert_ne.
Qed.

Lemma markStepComplete_frame_witness :
  let row := mkProgress "a" "u" "l" [0] 1 10 (Some 100) 70 3 1 in
  let t : Table := {[ ("u", "l") := row ]} in
  ∃ t' r', markStepComplete "u" "l" 1 (mkEnv 200 "b") t = (t', inr r') ∧
           t' !! ("u", "l") = Some r' ∧
           id r' = "a" ∧ userId r' = "u" ∧ lessonId r' = "l" ∧
           startedAt r' = 10 ∧ completedAt r' = Some 100 ∧
           timeSpentSecs r' = 70 ∧ hintsUsed r' = 3 ∧
           (∀ k, k ≠ ("u", "l") → t' !! k = t !! k).
Proof.
  intros row t.
  apply (markStepComplete_frame "u" "l" 1 (mkEnv 200 "b") t row).
  apply lookup_singleton_eq.
Defined.

(** ** Statistics *)

Lemma sumZ_permutation xs ys : xs ≡ₚ ys → sumZ xs = sumZ ys.
Proof. unfold sumZ. induction 1; simpl in *; lia. Qed.

Lemma fold_left_sumZ {A} (f : A → Z) (rows : list A) (acc : Z) :
  fold_left (λ sum p, sum + f p) rows acc = acc + sumZ (f <$> rows).
Proof.
  revert acc. induction rows as [|p rows IH]; intros acc; simpl.
  - unfold sumZ. simpl. lia.
  - rewrite IH. unfold sumZ. simpl. symmetry. apply Z.add_assoc.
Qed.

Lemma total_sumZ (column : DbUserProgress → Z) (m : Table) :
  total column m = sumZ (column <$> (map_to_list m).*2).
Proof.
  unfold total. rewrite map_fold_foldr.
  induction (map_to_list m) as [|[k r] rows IH]; [done|].
  rewrite !fmap_cons. unfold sumZ in *. simpl. by rewrite IH.
Qed.

Lemma filter_snd {K A} (P : A → Prop) `{!∀ x, Decision (P x)} (rows : list (K * A)) :
  filter P rows.*2 = (filter (λ kr, P kr.2) rows).*2.
Proof.
  induction rows as [|[k r] rows IH]; [done|].
  rewrite fmap_cons, !filter_cons. cbn [snd].
  case_decide; [rewrite fmap_cons|]; by rewrite IH.
Qed.

(** Listing a filtered table is filtering the listing, up to order. *)
Lemma map_to_list_filter_perm (P : Key * DbUserProgress → Prop)
    `{!∀ x, Decision (P x)} (m : Table) :
  map_to_list (filter P m) ≡ₚ filter P (map_to_list m).
Proof.
  induction m as [|k r m Hk IH] using map_ind.
  - by rewrite map_filter_empty, map_to_list_empty.
  - rewrite (map_to_list_insert m k r Hk), filter_cons.
    destruct (decide (P (k, r))) as [HP|HP].
    + rewrite map_filter_insert_True by done.
      rewrite map_to_list_insert by (rewrite map_lookup_filter_None; auto).
      by rewrite IH.
    + rewrite map_filter_insert_not' by naive_solver. exact IH.
Qed.

Lemma findMany_rows u e t :
  findMany u e t = (t, inr (filter (λ kr, userId kr.2 = u) (map_to_list t)).*2).
Proof. unfold findMany. by rewrite filter_snd. Qed.

(** C8. [getStats(userId)] leaves the table as it is and returns:
    [totalLessons], the number of records of the user; [completedLessons],
    the number of those with [completedAt] set; [totalTimeSpent] and
    [totalHintsUsed], the sums of their [timeSpentSecs] and [hintsUsed].
    With records A (completed, 100 s, 2 hints) and B (not completed, 50 s,
    1 hint) the result is [{2, 1, 150, 3}]. *)
Theorem getStats_spec :
  (∀ u e t,
     getStats u e t =
       (t, inr {| totalLessons := size (userRecords u t);
                  completedLessons := size (completedRecords (userRecords u t));
                  totalTimeSpent := total timeSpentSecs (userRecords u t);
                  totalHintsUsed := total hintsUsed (userRecords u t) |})) ∧
  (∀ e, getStats "u" e statsExample =
          (statsExample,
           inr {| totalLessons := 2; completedLessons := 1;
                  totalTimeSpent := 150; totalHintsUsed := 3 |})).
Proof.
  split; [|intros e; by vm_compute].
  intros u e t. unfold getStats, mbind, mret, db_bind, db_ret, bind, ret.
  rewrite findMany_rows. f_equal. f_equal.
  unfold userRecords, completedRecords.
  set (P := λ kr : Key * DbUserProgress, userId kr.2 = u).
  set (Q := λ kr : Key * DbUserProgress, completedAt kr.2 ≠ None).
  pose proof (map_to_list_filter_perm P t) as Hperm.
  f_equal.
  - rewrite <- length_map_to_list, Hperm. by rewrite length_fmap.
  - rewrite (filter_snd (λ p, completedAt p ≠ None)), length_fmap.
    rewrite <- length_map_to_list, (map_to_list_filter_perm Q), Hperm. done.
  - rewrite fold_left_sumZ, total_sumZ, Z.add_0_l.
    apply sumZ_permutation. by rewrite Hperm.
  - rewrite fold_left_sumZ, total_sumZ, Z.add_0_l.
    apply sumZ_permutation. by rewrite Hperm.
Qed.

(** ** Further properties of the repository *)

(** *** Shape of a write *)

Ltac exec_by H :=
  let Hrun := fresh "Hrun" in
  pose proof H as Hrun; simpl in Hrun;
  rewrite ?(exec_eq _ _ _ _ _ Hrun), ?Hrun.

(** A write either leaves the table as it is (a [markLessonComplete] that
    threw) or stores one row under the key it addresses. *)
Lemma runCall_shape c e t :
  (creates c = false ∧ t !! callKey c = None ∧ runCall c e t = t) ∨
  (∃ r', runCall c e t = <[callKey c := r']> t ∧
         (creates c = false → is_Some (t !! callKey c))).
Proof.
  destruct c as [data|u l n|u l s|u l]; simpl.
  - right. destruct (upsertProgress_step data e t) as (r' & Hrun & _).
    rewrite (exec_eq _ _ _ _ _ Hrun). eexists. split; [done | done].
  - right. destruct (markStepComplete_step u l n e t) as (r' & Hrun & _).
    rewrite (exec_eq _ _ _ _ _ Hrun). eexists. split; [done | done].
  - right. destruct (t !! (u, l)) as [r|] eqn:Hr.
    + exec_by (addTimeSpent_existing _ _ s e _ _ Hr). eexists. split; [done | done].
    + exec_by (addTimeSpent_fresh _ _ s e _ Hr). eexists. split; [done | done].
  - destruct (t !! (u, l)) as [r|] eqn:Hr.
    + right. exec_by (markLessonComplete_existing _ _ e _ _ Hr).
      eexists. split; [done | eauto].
    + left. exec_by (markLessonComplete_missing _ _ e _ Hr). done.
Qed.

(** On an existing record, the row a write stores keeps the four fields
    fixed at creation. *)
Lemma runCall_existing c e t r :
  t !! callKey c = Some r →
  ∃ r', runCall c e t = <[callKey c := r']> t ∧
        id r' = id r ∧ userId r' = userId r ∧ lessonId r' = lessonId r ∧
        startedAt r' = startedAt r.
Proof.
  destruct c as [data|u l n|u l s|u l]; simpl; intros Hr.
  - exec_by (upsertProgress_existing _ e _ _ Hr). eexists. split; [done | done].
  - exec_by (markStepComplete_existing _ _ n e _ _ Hr). eexists. split; [done | done].
  - exec_by (addTimeSpent_existing _ _ s e _ _ Hr). eexists. split; [done | done].
  - exec_by (markLessonComplete_existing _ _ e _ _ Hr). eexists. split; [done | done].
Qed.

(** On a key without a record, the row a creating write stores carries the
    identifiers of the key. *)
Lemma runCall_fresh c e t :
  t !! callKey c = None → creates c = true →
  ∃ r', runCall c e t = <[callKey c := r']> t ∧
        (userId r', lessonId r') = callKey c.
Proof.
  destruct c as [data|u l n|u l s|u l]; simpl; intros Hr Hc; try done.
  - exec_by (upsertProgress_fresh _ e _ Hr). eexists. split; [done | done].
  - exec_by (markStepComplete_fresh _ _ n e _ Hr). eexists. split; [done | done].
  - exec_by (addTimeSpent_fresh _ _ s e _ Hr). eexists. split; [done | done].
Qed.

Lemma getProgress_run u l e t :
  getProgress u l e t = (t, inr (t !! (u, l))).
Proof.
  run_db. f_equal. f_equal. destruct (t !! (u, l)) as [r|]; simpl; [|done].
  by rewrite mapToDbProgress_id.
Qed.

(** *** Reading back *)

(** X1. Read your own write: when [upsertProgress], [markStepComplete] or
    [markLessonComplete] returns a record, a [getProgress] of the same key
    made next returns that very record, and leaves the table alone. *)
Theorem getProgress_after_write u l e e' t t' r :
  (∃ data, in_userId data = u ∧ in_lessonId data = l ∧
           upsertProgress data e t = (t', inr r)) ∨
  (∃ n, markStepComplete u l n e t = (t', inr r)) ∨
  markLessonComplete u l e t = (t', inr r) →
  getProgress u l e' t' = (t', inr (Some r)).
Proof.
  intros Hwrite. rewrite getProgress_run. f_equal. f_equal.
  destruct Hwrite as [(data & <- & <- & Hrun) | [(n & Hrun) | Hrun]].
  - destruct (upsertProgress_step data e t) as (r' & Hrun' & _).
    rewrite Hrun' in Hrun. injection Hrun as <- <-. apply lookup_insert_eq.
  - destruct (markStepComplete_step u l n e t) as (r' & Hrun' & _).
    rewrite Hrun' in Hrun. injection Hrun as <- <-. apply lookup_insert_eq.
  - destruct (t !! (u, l)) as [r0|] eqn:Hr.
    + rewrite (markLessonComplete_existing _ _ _ _ _ Hr) in Hrun. simpl in Hrun.
      injection Hrun as <- <-. apply lookup_insert_eq.
    + rewrite (markLessonComplete_missing _ _ _ _ Hr) in Hrun. discriminate.
Qed.

Lemma getProgress_after_write_witness :
  let r := mkProgress "a" "u" "l" [3] 4 10 None 0 0 1 in
  getProgress "u" "l" (mkEnv 20 "b") {[ ("u", "l") := r ]}
  = ({[ ("u", "l") := r ]}, inr (Some r)).
Proof.
  intros r.
  apply (getProgress_after_write "u" "l" (mkEnv 10 "a") (mkEnv 20 "b") ∅).
  right. left. exists 3. reflexivity.
Defined.



(** *** Keys, identity and framing *)

Lemma keysMatch_runCall c e t : keysMatch t → keysMatch (runCall c e t).
Proof.
  intros Hkeys u l r.
  destruct (decide ((u, l) = callKey c)) as [Heq|Hne].
  - destruct (t !! callKey c) as [r0|] eqn:Hr0.
    + destruct (runCall_existing c e t r0 Hr0) as (r' & -> & _ & Hu & Hl & _).
      rewrite Heq, lookup_insert_eq. intros [= <-]. rewrite Hu, Hl.
      apply Hkeys. by rewrite Heq.
    + destruct (creates c) eqn:Hc.
      * destruct (runCall_fresh c e t Hr0 Hc) as (r' & -> & Hids).
        rewrite Heq, lookup_insert_eq. intros [= <-].
        rewrite <- Heq in Hids. by injection Hids.
      * destruct (runCall_shape c e t) as [(_ & _ & ->) | (r' & _ & Hsome)].
        -- apply Hkeys.
        -- destruct (Hsome Hc) as [r1 Hr1]. congruence.
  - destruct (runCall_shape c e t) as [(_ & _ & ->) | (r' & -> & _)].
    + apply Hkeys.
    + rewrite lookup_insert_ne by done. apply Hkeys.
Qed.

(** X3. Every row sits under the key made of its own [userId] and
    [lessonId]: the property holds on the empty table and every write of
    the repository keeps it, so it holds after any sequence of writes. *)
Theorem keysMatch_preserved cs t :
  keysMatch t → keysMatch (runCalls cs t).
Proof.
  revert t. induction cs as [|[c e] cs IH]; intros t Hkeys; simpl; [done|].
  apply IH. by apply keysMatch_runCall.
Qed.

Lemma keysMatch_empty : keysMatch ∅.
Proof. intros u l r Hr. by rewrite lookup_empty in Hr. Qed.

Lemma keysMatch_preserved_witness :
  keysMatch (runCalls [(CallStep "u" "l" 0, mkEnv 10 "a");
                       (CallTime "u" "m" 30, mkEnv 20 "b");
                       (CallComplete "u" "l", mkEnv 30 "c")] ∅).
Proof. apply keysMatch_preserved. apply keysMatch_empty. Defined.

(** X4. A write touches one key only: under every other key the table
    holds after the write what it held before, whether the write created a
    record, updated one, or threw. *)
Theorem runCall_other_keys c e t k :
  k ≠ callKey c → runCall c e t !! k = t !! k.
Proof.
  intros Hne.
  destruct (runCall_shape c e t) as [(_ & _ & ->) | (r' & -> & _)]; [done|].
  by rewrite lookup_insert_ne.
Qed.

Lemma runCall_other_keys_witness :
  let t : Table := {[ ("u", "m") := mkProgress "a" "u" "m" [0] 1 10 None 5 0 1 ]} in
  runCall (CallStep "u" "l" 2) (mkEnv 20 "b") t !! ("u", "m") = t !! ("u", "m").
Proof. intros t. apply runCall_other_keys. discriminate. Defined.

(** X5. No write deletes a record or changes the fields fixed at creation:
    after any write, a record that existed is still there with the same
    [id], [userId], [lessonId] and [startedAt]. *)
Theorem identity_fields_fixed c e t k r :
  t !! k = Some r →
  ∃ r', runCall c e t !! k = Some r' ∧
        id r' = id r ∧ userId r' = userId r ∧ lessonId r' = lessonId r ∧
        startedAt r' = startedAt r.
Proof.
  intros Hr. destruct (decide (k = callKey c)) as [->|Hne].
  - destruct (runCall_existing c e t r Hr) as (r' & -> & Hfields).
    exists r'. split; [apply lookup_insert_eq | done].
  - exists r. rewrite runCall_other_keys by done. done.
Qed.

Lemma identity_fields_fixed_witness :
  let r := mkProgress "a" "u" "l" [0] 1 10 None 5 0 1 in
  ∃ r', runCall (CallUpsert (mkUpsertInput "u" "l" (Some 9) (Some []) None None None))
          (mkEnv 20 "b") {[ ("u", "l") := r ]} !! ("u", "l") = Some r' ∧
        id r' = "a" ∧ userId r' = "u" ∧ lessonId r' = "l" ∧ startedAt r' = 10.
Proof.
  intros r.
  apply (identity_fields_fixed _ _ {[ ("u", "l") := r ]} ("u", "l") r).
  apply lookup_singleton_eq.
Defined.

(** *** Completing steps *)

Lemma updatedSteps_elem s steps n :
  s ∈ (if includes steps n then steps else steps ++ [n]) ↔ s ∈ steps ∨ s = n.
Proof.
  destruct (includes steps n) eqn:Hinc.
  - apply includes_true_iff in Hinc. split; [auto | intros [?| ->]; done].
  - rewrite elem_of_app, list_elem_of_singleton. done.
Qed.

Lemma includes_updatedSteps steps n :
  includes (if includes steps n then steps else steps ++ [n]) n = true.
Proof. apply includes_true_iff, updatedSteps_elem. by right. Qed.

Lemma includes_updatedSteps_ne steps m n :
  m ≠ n →
  includes (if includes steps m then steps else steps ++ [m]) n = includes steps n.
Proof.
  intros Hne. destruct (includes steps n) eqn:Hinc.
  - apply includes_true_iff, updatedSteps_elem. left. by apply includes_true_iff.
  - apply includes_false_iff. rewrite updatedSteps_elem.
    apply includes_false_iff in Hinc. intros [?|?]; [done | congruence].
Qed.

(** Adding [m] then [n] to a list of steps gives the steps of adding [n]
    then [m], in another order at most. *)
Lemma updatedSteps_comm steps m n :
  (let steps1 := if includes steps m then steps else steps ++ [m] in
   if includes steps1 n then steps1 else steps1 ++ [n])
  ≡ₚ
  (let steps1 := if includes steps n then steps else steps ++ [n] in
   if includes steps1 m then steps1 else steps1 ++ [m]).
Proof.
  simpl. destruct (decide (m = n)) as [->|Hne]; [done|].
  rewrite (includes_updatedSteps_ne steps m n Hne).
  rewrite (includes_updatedSteps_ne steps n m) by congruence.
  destruct (includes steps m), (includes steps n); try done.
  rewrite <- !(assoc_L (++)). apply Permutation_app_head. apply perm_swap.
Qed.

Lemma exec_markStepComplete_existing u l n e t r :
  t !! (u, l) = Some r →
  exec (markStepComplete u l n) e t =
    <[(u, l) :=
       {| id := id r; userId := userId r; lessonId := lessonId r;
          completedSteps :=
            if includes (completedSteps r) n then completedSteps r
            else completedSteps r ++ [n];
          currentStep := Z.max (currentStep r) (n + 1);
          startedAt := startedAt r; completedAt := completedAt r;
          timeSpentSecs := timeSpentSecs r; hintsUsed := hintsUsed r;
          attempts := attempts r + 1 |}]> t.
Proof. intros Hr. by exec_by (markStepComplete_existing u l n e _ _ Hr). Qed.

Lemma exec_markStepComplete_fresh u l n e t :
  t !! (u, l) = None →
  exec (markStepComplete u l n) e t =
    <[(u, l) :=
       {| id := freshId e; userId := u; lessonId := l;
          completedSteps := [n]; currentStep := n + 1;
          startedAt := now e; completedAt := None;
          timeSpentSecs := 0; hintsUsed := 0; attempts := 1 |}]> t.
Proof. intros Hr. by exec_by (markStepComplete_fresh u l n e _ Hr). Qed.

(** X6. [markStepComplete] is idempotent on [completedSteps] and
    [currentStep], from any table: a second call with the same step number
    stores the same list and the same cursor as the first, and one more
    attempt. *)
Theorem markStepComplete_idempotent u l n e1 e2 t :
  ∃ r1 r2,
    exec (markStepComplete u l n) e1 t !! (u, l) = Some r1 ∧
    exec (markStepComplete u l n) e2 (exec (markStepComplete u l n) e1 t) !! (u, l)
      = Some r2 ∧
    completedSteps r2 = completedSteps r1 ∧
    currentStep r2 = currentStep r1 ∧
    attempts r2 = attempts r1 + 1.
Proof.
  destruct (markStepComplete_step u l n e1 t) as (r1 & Hrun1 & Hocc & Hcur & _).
  rewrite (exec_eq _ _ _ _ _ Hrun1).
  assert (Hlk : <[(u, l) := r1]> t !! (u, l) = Some r1) by apply lookup_insert_eq.
  exec_by (markStepComplete_existing u l n e2 _ _ Hlk).
  exists r1. eexists. split; [done|]. split; [apply lookup_insert_eq|]. simpl.
  assert (Hin : includes (completedSteps r1) n = true).
  { apply includes_true_iff.
    destruct (decide (n ∈ completedSteps r1)) as [Hin|Hnin]; [done|].
    apply occurrences_zero_iff in Hnin. lia. }
  rewrite Hin. repeat split; lia.
Qed.

(** X7. [markStepComplete] never drops a completed step: on an existing
    record the stored list starts with the old list, and holds exactly the
    old steps and the new one. *)
Theorem markStepComplete_keeps_steps u l n e t r :
  t !! (u, l) = Some r →
  ∃ r', exec (markStepComplete u l n) e t !! (u, l) = Some r' ∧
        completedSteps r `prefix_of` completedSteps r' ∧
        (∀ s, s ∈ completedSteps r' ↔ s ∈ completedSteps r ∨ s = n) ∧
        (length (completedSteps r') ≤ S (length (completedSteps r)))%nat.
Proof.
  intros Hr. exec_by (markStepComplete_existing u l n e _ _ Hr).
  eexists. split; [apply lookup_insert_eq|]. simpl. split; [|split].
  - destruct (includes (completedSteps r) n); [done | by apply prefix_app_r].
  - intros s. apply updatedSteps_elem.
  - destruct (includes (completedSteps r) n); [lia|].
    rewrite length_app. simpl. lia.
Qed.

Lemma markStepComplete_keeps_steps_witness :
  let r := mkProgress "a" "u" "l" [3; 0] 4 10 None 0 0 2 in
  ∃ r', exec (markStepComplete "u" "l" 1) (mkEnv 20 "b") {[ ("u", "l") := r ]}
          !! ("u", "l") = Some r' ∧
        [3; 0] `prefix_of` completedSteps r' ∧
        (∀ s, s ∈ completedSteps r' ↔ s ∈ [3; 0] ∨ s = 1) ∧
        (length (completedSteps r') ≤ 3)%nat.
Proof.
  intros r.
  apply (markStepComplete_keeps_steps "u" "l" 1 (mkEnv 20 "b") {[ ("u", "l") := r ]} r).
  apply lookup_singleton_eq.
Defined.

(** X8. The order in which two steps are completed does not matter for
    what is recorded: completing [m] then [n], or [n] then [m], under the
    same key leaves the same steps (as a list, up to order), the same
    cursor and the same number of attempts. *)
Theorem markStepComplete_commutes u l m n e1 e2 t :
  ∃ r r',
    exec (markStepComplete u l n) e2 (exec (markStepComplete u l m) e1 t) !! (u, l)
      = Some r ∧
    exec (markStepComplete u l m) e2 (exec (markStepComplete u l n) e1 t) !! (u, l)
      = Some r' ∧
    completedSteps r ≡ₚ completedSteps r' ∧
    currentStep r = currentStep r' ∧
    attempts r = attempts r'.
Proof.
  destruct (t !! (u, l)) as [r0|] eqn:Hr0.
  - rewrite (exec_markStepComplete_existing u l m e1 t r0 Hr0).
    rewrite (exec_markStepComplete_existing u l n e1 t r0 Hr0).
    erewrite !exec_markStepComplete_existing by apply lookup_insert_eq.
    do 2 eexists. split; [apply lookup_insert_eq|].
    split; [apply lookup_insert_eq|]. simpl.
    split; [apply updatedSteps_comm|]. split; lia.
  - rewrite (exec_markStepComplete_fresh u l m e1 t Hr0).
    rewrite (exec_markStepComplete_fresh u l n e1 t Hr0).
    erewrite !exec_markStepComplete_existing by apply lookup_insert_eq.
    do 2 eexists. split; [apply lookup_insert_eq|].
    split; [apply lookup_insert_eq|]. simpl.
    split; [|split; lia].
    unfold includes. simpl. rewrite (Z.eqb_sym m n).
    destruct (n =? m) eqn:Hnm; simpl.
    + apply Z.eqb_eq in Hnm. by subst.
    + apply perm_swap.
Qed.

(** *** Accumulating time *)

Lemma exec_addTimeSpent_existing u l s e t r :
  t !! (u, l) = Some r →
  exec (addTimeSpent u l s) e t =
    <[(u, l) :=
       {| id := id r; userId := userId r; lessonId := lessonId r;
          completedSteps := completedSteps r; currentStep := currentStep r;
          startedAt := startedAt r; completedAt := completedAt r;
          timeSpentSecs := timeSpentSecs r + s;
          hintsUsed := hintsUsed r; attempts := attempts r |}]> t.
Proof. intros Hr. by exec_by (addTimeSpent_existing u l s e _ _ Hr). Qed.

Lemma exec_addTimeSpent_fresh u l s e t :
  t !! (u, l) = None →
  exec (addTimeSpent u l s) e t =
    <[(u, l) :=
       {| id := freshId e; userId := u; lessonId := l;
          completedSteps := []; currentStep := 0;
          startedAt := now e; completedAt := None;
          timeSpentSecs := s; hintsUsed := 0; attempts := 0 |}]> t.
Proof. intros Hr. by exec_by (addTimeSpent_fresh u l s e _ Hr). Qed.

(** X9. Time accumulates: two [addTimeSpent] calls on a key leave the very
    table one call with the sum of the seconds leaves, whether or not the
    key had a record; so the order of the two amounts does not matter. *)
Theorem addTimeSpent_accumulates u l s1 s2 e1 e2 t :
  exec (addTimeSpent u l s2) e2 (exec (addTimeSpent u l s1) e1 t)
    = exec (addTimeSpent u l (s1 + s2)) e1 t ∧
  exec (addTimeSpent u l s2) e2 (exec (addTimeSpent u l s1) e1 t)
    = exec (addTimeSpent u l s1) e2 (exec (addTimeSpent u l s2) e1 t).
Proof.
  assert (Hsum : ∀ a b,
    exec (addTimeSpent u l b) e2 (exec (addTimeSpent u l a) e1 t)
    = exec (addTimeSpent u l (a + b)) e1 t).
  { intros a b. destruct (t !! (u, l)) as [r|] eqn:Hr.
    - rewrite !(exec_addTimeSpent_existing u l _ e1 t r Hr).
      erewrite exec_addTimeSpent_existing by apply lookup_insert_eq.
      rewrite insert_insert_eq. simpl. by rewrite Z.add_assoc.
    - rewrite !(exec_addTimeSpent_fresh u l _ e1 t Hr).
      erewrite exec_addTimeSpent_existing by apply lookup_insert_eq.
      rewrite insert_insert_eq. done. }
  split; [apply Hsum|]. rewrite !Hsum. by rewrite (Z.add_comm s1 s2).
Qed.

(** *** Writes that change nothing, and counters that only grow *)

(** X10. On an existing record, an [upsertProgress] whose input carries
    the key alone, and an [addTimeSpent] of [0] seconds, leave the whole
    table exactly as it was; the upsert returns the stored record. *)
Theorem empty_updates_change_nothing u l e t r :
  t !! (u, l) = Some r →
  upsertProgress (mkUpsertInput u l None None None None None) e t = (t, inr r) ∧
  addTimeSpent u l 0 e t = (t, inr ()).
Proof.
  intros Hr. split.
  - pose proof (upsertProgress_existing
                  (mkUpsertInput u l None None None None None) e t r Hr) as Hrun.
    simpl in Hrun. rewrite Hrun. rewrite !Z.add_0_r.
    destruct r; simpl in *. by rewrite insert_id.
  - rewrite (addTimeSpent_existing u l 0 e t r Hr). rewrite Z.add_0_r.
    destruct r; simpl in *. by rewrite insert_id.
Qed.

Lemma empty_updates_change_nothing_witness :
  let r := mkProgress "a" "u" "l" [0; 1] 2 10 (Some 90) 40 1 3 in
  let t : Table := {[ ("u", "l") := r ]} in
  upsertProgress (mkUpsertInput "u" "l" None None None None None) (mkEnv 20 "b") t
    = (t, inr r) ∧
  addTimeSpent "u" "l" 0 (mkEnv 20 "b") t = (t, inr ()).
Proof.
  intros r t. apply (empty_updates_change_nothing "u" "l" (mkEnv 20 "b") t r).
  apply lookup_singleton_eq.
Defined.

(** X11. Counters only grow: when the amounts a write adds are not
    negative, [timeSpentSecs], [hintsUsed] and [attempts] of the record it
    addresses are afterwards at least what they were; and the cursor
    [currentStep] does not go back under any write but [upsertProgress]. *)
Theorem counters_do_not_decrease c e t r :
  t !! callKey c = Some r →
  nonNegativeDeltas c →
  ∃ r', runCall c e t !! callKey c = Some r' ∧
        timeSpentSecs r ≤ timeSpentSecs r' ∧
        hintsUsed r ≤ hintsUsed r' ∧
        attempts r ≤ attempts r' ∧
        (stepwise c = true → currentStep r ≤ currentStep r').
Proof.
  destruct c as [data|u l n|u l s|u l]; simpl; intros Hr Hpos.
  - exec_by (upsertProgress_existing _ e _ _ Hr).
    eexists. split; [apply lookup_insert_eq|]. simpl.
    destruct Hpos as (? & ? & ?). repeat split; try lia; done.
  - exec_by (markStepComplete_existing _ _ n e _ _ Hr).
    eexists. split; [apply lookup_insert_eq|]. simpl. repeat split; lia.
  - exec_by (addTimeSpent_existing _ _ s e _ _ Hr).
    eexists. split; [apply lookup_insert_eq|]. simpl. repeat split; lia.
  - exec_by (markLessonComplete_existing _ _ e _ _ Hr).
    eexists. split; [apply lookup_insert_eq|]. simpl. repeat split; lia.
Qed.

Lemma counters_do_not_decrease_witness :
  let r := mkProgress "a" "u" "l" [0; 1] 2 10 None 40 1 3 in
  let c := CallUpsert (mkUpsertInput "u" "l" None None (Some 5) None (Some 0)) in
  ∃ r', runCall c (mkEnv 20 "b") {[ ("u", "l") := r ]} !! callKey c = Some r' ∧
        40 ≤ timeSpentSecs r' ∧ 1 ≤ hintsUsed r' ∧ 3 ≤ attempts r' ∧
        (stepwise c = true → 2 ≤ currentStep r').
Proof.
  intros r c.
  apply (counters_do_not_decrease c (mkEnv 20 "b") {[ ("u", "l") := r ]} r).
  - apply lookup_singleton_eq.
  - simpl. lia.
Defined.

(** *** Statistics and writes *)

Lemma getStats_run u e t :
  getStats u e t =
    (t, inr {| totalLessons := size (userRecords u t);
               completedLessons := size (completedRecords (userRecords u t));
               totalTimeSpent := total timeSpentSecs (userRecords u t);
               totalHintsUsed := total hintsUsed (userRecords u t) |}).
Proof.
  unfold getStats, mbind, mret, db_bind, db_ret, bind, ret.
  rewrite findMany_rows. f_equal. f_equal.
  unfold userRecords, completedRecords.
  set (P := λ kr : Key * DbUserProgress, userId kr.2 = u).
  set (Q := λ kr : Key * DbUserProgress, completedAt kr.2 ≠ None).
  pose proof (map_to_list_filter_perm P t) as Hperm.
  f_equal.
  - rewrite <- length_map_to_list, Hperm. by rewrite length_fmap.
  - rewrite (filter_snd (λ p, completedAt p ≠ None)), length_fmap.
    rewrite <- length_map_to_list, (map_to_list_filter_perm Q), Hperm. done.
  - rewrite fold_left_sumZ, total_sumZ, Z.add_0_l.
    apply sumZ_permutation. by rewrite Hperm.
  - rewrite fold_left_sumZ, total_sumZ, Z.add_0_l.
    apply sumZ_permutation. by rewrite Hperm.
Qed.

Lemma userRecords_lookup u t k r :
  userRecords u t !! k = Some r ↔ t !! k = Some r ∧ userId r = u.
Proof. unfold userRecords. by rewrite map_lookup_filter_Some. Qed.

Lemma userRecords_lookup_None u t k :
  t !! k = None → userRecords u t !! k = None.
Proof.
  intros Hk. destruct (userRecords u t !! k) as [r|] eqn:Hr; [|done].
  apply userRecords_lookup in Hr as [Hr _]. congruence.
Qed.

Lemma userRecords_insert_in u k r' t :
  userId r' = u → userRecords u (<[k := r']> t) = <[k := r']> (userRecords u t).
Proof. intros Hu. unfold userRecords. by rewrite map_filter_insert_True. Qed.

Lemma userRecords_insert_out u k r' t :
  userId r' ≠ u → (∀ r, t !! k = Some r → userId r ≠ u) →
  userRecords u (<[k := r']> t) = userRecords u t.
Proof. intros Hu Hold. unfold userRecords. by rewrite map_filter_insert_not'. Qed.

Lemma total_insert_fresh (column : DbUserProgress → Z) (m : Table) k r' :
  m !! k = None → total column (<[k := r']> m) = total column m + column r'.
Proof.
  intros Hk. rewrite !total_sumZ.
  rewrite (sumZ_permutation _ (column <$> ((k, r') :: map_to_list m).*2)).
  - rewrite !fmap_cons. change (sumZ ?xs) with (foldr Z.add 0 xs) at 1.
    rewrite foldr_cons. fold (sumZ (column <$> (map_to_list m).*2)).
    cbn [snd]. lia.
  - by rewrite (map_to_list_insert m k r' Hk).
Qed.

Lemma total_insert_existing (column : DbUserProgress → Z) (m : Table) k r r' :
  m !! k = Some r →
  total column (<[k := r']> m) = total column m - column r + column r'.
Proof.
  intros Hk. rewrite <- (insert_delete_eq m k r').
  rewrite total_insert_fresh by apply lookup_delete_eq.
  rewrite <- (insert_delete_id m k r Hk) at 2.
  rewrite (total_insert_fresh column (delete k m) k r) by apply lookup_delete_eq. lia.
Qed.

(** The row a write stores belongs to the user of the key, on a table
    where rows sit under their own keys. *)
Lemma written_row_user c e t r' :
  keysMatch t → runCall c e t !! callKey c = Some r' →
  userId r' = (callKey c).1.
Proof.
  intros Hkeys Hlk. pose proof (keysMatch_runCall c e t Hkeys) as Hkeys'.
  destruct (callKey c) as [u l]. by destruct (Hkeys' u l r' Hlk).
Qed.

(** X12. [getStats] never reports more completed lessons than lessons, and
    for a user without any record it reports zero everywhere. *)
Theorem getStats_bounds u e t :
  ∃ st, getStats u e t = (t, inr st) ∧
        (completedLessons st ≤ totalLessons st)%nat ∧
        ((∀ k r, t !! k = Some r → userId r ≠ u) → st = mkStats 0 0 0 0).
Proof.
  rewrite getStats_run. eexists. split; [done|]. simpl. split.
  - unfold completedRecords. apply map_size_filter.
  - intros Hnone.
    assert (Hempty : userRecords u t = ∅).
    { apply map_eq. intros k. rewrite lookup_empty.
      destruct (userRecords u t !! k) as [r|] eqn:Hr; [|done].
      apply userRecords_lookup in Hr as [Hr Hu]. by destruct (Hnone k r Hr). }
    rewrite Hempty. unfold completedRecords, total.
    by rewrite map_filter_empty, map_size_empty, map_fold_empty.
Qed.

Lemma getStats_bounds_witness :
  ∃ st, getStats "u" (mkEnv 10 "a")
          {[ ("v", "l") := mkProgress "a" "v" "l" [0] 1 10 (Some 20) 30 1 1 ]}
        = ({[ ("v", "l") := mkProgress "a" "v" "l" [0] 1 10 (Some 20) 30 1 1 ]}, inr st) ∧
        (completedLessons st ≤ totalLessons st)%nat ∧
        st = mkStats 0 0 0 0.
Proof.
  destruct (getStats_bounds "u" (mkEnv 10 "a")
              {[ ("v", "l") := mkProgress "a" "v" "l" [0] 1 10 (Some 20) 30 1 1 ]})
    as (st & Hrun & Hle & Hzero).
  exists st. split; [exact Hrun|]. split; [exact Hle|].
  apply Hzero. intros k r Hr. apply lookup_singleton_Some in Hr as [_ <-].
  discriminate.
Defined.

(** X13. A write for one user never changes the statistics of another:
    on a table where rows sit under their own keys, [getStats] of a user
    other than the one written for returns after the write what it returned
    before. *)
Theorem getStats_other_user c e e' t u :
  keysMatch t →
  u ≠ (callKey c).1 →
  (getStats u e' (runCall c e t)).2 = (getStats u e' t).2.
Proof.
  intros Hkeys Hne. rewrite !getStats_run. simpl.
  assert (Hsame : userRecords u (runCall c e t) = userRecords u t);
    [|by rewrite Hsame].
  destruct (runCall_shape c e t) as [(_ & _ & ->) | (r' & Hrun & _)]; [done|].
  assert (Hr' : userId r' = (callKey c).1).
  { apply (written_row_user c e t r' Hkeys). rewrite Hrun. apply lookup_insert_eq. }
  rewrite Hrun. apply userRecords_insert_out; [congruence|].
  intros r Hr. destruct (callKey c) as [u0 l0]. simpl in *.
  destruct (Hkeys u0 l0 r Hr) as [-> _]. congruence.
Qed.

Lemma getStats_other_user_witness :
  let t : Table := {[ ("v", "l") := mkProgress "a" "v" "l" [0] 1 10 None 30 1 1 ]} in
  (getStats "v" (mkEnv 30 "c") (runCall (CallTime "u" "l" 60) (mkEnv 20 "b") t)).2
  = (getStats "v" (mkEnv 30 "c") t).2.
Proof.
  intros t. apply getStats_other_user.
  - intros u l r Hr. apply lookup_singleton_Some in Hr as [[= <- <-] <-]. done.
  - discriminate.
Defined.

(** X14. Statistics follow the counters: on a table where rows sit under
    their own keys, [addTimeSpent(u, l, s)] raises the [totalTimeSpent] of
    [u] by [s], and an [upsertProgress] for [u] raises [totalTimeSpent] and
    [totalHintsUsed] by the amounts it carries (by nothing when it carries
    none), whether the record existed or is created by the call. *)
Theorem getStats_follows_counters u l e e' t :
  keysMatch t →
  (∀ s, ∃ st st',
     getStats u e' t = (t, inr st) ∧
     getStats u e' (exec (addTimeSpent u l s) e t)
       = (exec (addTimeSpent u l s) e t, inr st') ∧
     totalTimeSpent st' = totalTimeSpent st + s) ∧
  (∀ data, in_userId data = u → in_lessonId data = l →
     ∃ st st',
       getStats u e' t = (t, inr st) ∧
       getStats u e' (exec (upsertProgress data) e t)
         = (exec (upsertProgress data) e t, inr st') ∧
       totalTimeSpent st' = totalTimeSpent st + default 0 (in_timeSpentSecs data) ∧
       totalHintsUsed st' = totalHintsUsed st + default 0 (in_hintsUsed data)).
Proof.
  intros Hkeys. split.
  - intros s. rewrite !getStats_run. do 2 eexists.
    split; [done|]. split; [done|]. simpl.
    destruct (t !! (u, l)) as [r|] eqn:Hr.
    + destruct (Hkeys u l r Hr) as [Hu _].
      rewrite (exec_addTimeSpent_existing u l s e t r Hr).
      rewrite userRecords_insert_in by done.
      rewrite (total_insert_existing timeSpentSecs _ _ r)
        by (by apply userRecords_lookup). simpl. lia.
    + rewrite (exec_addTimeSpent_fresh u l s e t Hr).
      rewrite userRecords_insert_in by done.
      rewrite total_insert_fresh by (by apply userRecords_lookup_None). done.
  - intros data <- <-. rewrite !getStats_run. do 2 eexists.
    split; [done|]. split; [done|]. simpl.
    destruct (t !! (in_userId data, in_lessonId data)) as [r|] eqn:Hr.
    + destruct (Hkeys _ _ r Hr) as [Hu _].
      exec_by (upsertProgress_existing data e t r Hr).
      rewrite userRecords_insert_in by done.
      rewrite !(total_insert_existing _ _ _ r) by (by apply userRecords_lookup).
      simpl. lia.
    + exec_by (upsertProgress_fresh data e t Hr).
      rewrite userRecords_insert_in by done.
      rewrite !total_insert_fresh by (by apply userRecords_lookup_None). done.
Qed.

Lemma getStats_follows_counters_witness :
  let t : Table := {[ ("u", "l") := mkProgress "a" "u" "l" [0] 1 10 None 30 1 1 ]} in
  let e := mkEnv 20 "b" in
  ∃ st st',
    getStats "u" e t = (t, inr st) ∧
    getStats "u" e (exec (addTimeSpent "u" "m" 60) e t)
      = (exec (addTimeSpent "u" "m" 60) e t, inr st') ∧
    totalTimeSpent st' = totalTimeSpent st + 60.
Proof.
  intros t e.
  destruct (getStats_follows_counters "u" "m" e e t) as [Htime _].
  - intros u l r Hr. apply lookup_singleton_Some in Hr as [[= <- <-] <-]. done.
  - apply (Htime 60).
Defined.

(** X15. One record per user and lesson: on a table where rows sit under
    their own keys, a write to a key that has a record leaves the
    [totalLessons] of its user unchanged, and a creating write to a key
    without a record raises it by one. *)
Theorem getStats_counts_lessons c e e' t :
  keysMatch t →
  ∃ st st',
    getStats (callKey c).1 e' t = (t, inr st) ∧
    getStats (callKey c).1 e' (runCall c e t) = (runCall c e t, inr st') ∧
    (is_Some (t !! callKey c) → totalLessons st' = totalLessons st) ∧
    (t !! callKey c = None → creates c = true →
       totalLessons st' = S (totalLessons st)).
Proof.
  intros Hkeys. rewrite !getStats_run. do 2 eexists.
  split; [done|]. split; [done|]. simpl. split.
  - intros [r Hr].
    destruct (runCall_existing c e t r Hr) as (r' & -> & _ & Hu & _).
    assert (Hur : userId r = (callKey c).1).
    { destruct (callKey c) as [u l]. by destruct (Hkeys u l r Hr). }
    rewrite userRecords_insert_in by congruence.
    apply map_size_insert_Some. exists r. by apply userRecords_lookup.
  - intros Hr Hc.
    destruct (runCall_fresh c e t Hr Hc) as (r' & -> & Hids).
    rewrite userRecords_insert_in by (by rewrite <- Hids).
    apply map_size_insert_None. by apply userRecords_lookup_None.
Qed.

Lemma getStats_counts_lessons_witness :
  let t : Table := {[ ("u", "l") := mkProgress "a" "u" "l" [0] 1 10 None 30 1 1 ]} in
  let e := mkEnv 20 "b" in
  let c := CallStep "u" "m" 0 in
  ∃ st st',
    getStats "u" e t = (t, inr st) ∧
    getStats "u" e (runCall c e t) = (runCall c e t, inr st') ∧
    (is_Some (t !! callKey c) → totalLessons st' = totalLessons st) ∧
    (t !! callKey c = None → creates c = true →
       totalLessons st' = S (totalLessons st)).
Proof.
  intros t e c. apply (getStats_counts_lessons c e e t).
  intros u l r Hr. apply lookup_singleton_Some in Hr as [[= <- <-] <-]. done.
Defined.

(** X16. Completing a lesson counts once: on a table where rows sit under
    their own keys, [markLessonComplete(u, l)] on a record not yet
    completed raises the [completedLessons] of [u] by one, and on a record
    already completed leaves it unchanged. *)
Theorem getStats_counts_completion u l e e' t r :
  keysMatch t →
  t !! (u, l) = Some r →
  ∃ st st',
    getStats u e' t = (t, inr st) ∧
    getStats u e' (exec (markLessonComplete u l) e t)
      = (exec (markLessonComplete u l) e t, inr st') ∧
    completedLessons st'
      = (if completedAt r is Some _ then completedLessons st
         else S (completedLessons st)).
Proof.
  intros Hkeys Hr. destruct (Hkeys u l r Hr) as [Hu _].
  rewrite !getStats_run. do 2 eexists. split; [done|]. split; [done|]. simpl.
  exec_by (markLessonComplete_existing u l e t r Hr).
  rewrite userRecords_insert_in by done.
  unfold completedRecords. rewrite map_filter_insert_True by done.
  destruct (completedAt r) as [d|] eqn:Hd.
  - apply map_size_insert_Some. exists r. apply map_lookup_filter_Some.
    split; [by apply userRecords_lookup | simpl; congruence].
  - apply map_size_insert_None. apply map_lookup_filter_None. right.
    intros r0 Hr0. apply userRecords_lookup in Hr0 as [Hr0 _]. simpl.
    intros Hne. apply Hne. congruence.
Qed.

Lemma getStats_counts_completion_witness :
  let r := mkProgress "a" "u" "l" [0] 1 10 None 30 1 1 in
  let t : Table := {[ ("u", "l") := r ]} in
  let e := mkEnv 20 "b" in
  ∃ st st',
    getStats "u" e t = (t, inr st) ∧
    getStats "u" e (exec (markLessonComplete "u" "l") e t)
      = (exec (markLessonComplete "u" "l") e t, inr st') ∧
    completedLessons st' = S (completedLessons st).
Proof.
  intros r t e. apply (getStats_counts_completion "u" "l" e e t r).
  - intros u l r0 Hr. apply lookup_singleton_Some in Hr as [[= <- <-] <-]. done.
  - apply lookup_singleton_eq.
Defined.

(** *** Listing the progress of a user *)

Lemma startedAtDesc_total : Total startedAtDesc.
Proof. intros a b. unfold startedAtDesc. lia. Qed.

Lemma startedAtDesc_trans : Transitive startedAtDesc.
Proof. intros a b c. unfold startedAtDesc. lia. Qed.

Lemma map_mapToDbProgress rows : map mapToDbProgress rows = rows.
Proof.
  induction rows as [|r rows IH]; simpl; [done|].
  by rewrite mapToDbProgress_id, IH.
Qed.

Lemma getAllProgress_run u e t :
  getAllProgress u e t =
    (t, inr (merge_sort startedAtDesc
               (filter (λ r, userId r = u) (map_to_list t).*2))).
Proof.
  unfold getAllProgress, mbind, mret, db_bind, db_ret, bind, ret, findManyOrderBy.
  by rewrite map_mapToDbProgress.
Qed.

Lemma user_rows_perm u t :
  filter (λ r, userId r = u) (map_to_list t).*2
  ≡ₚ (map_to_list (userRecords u t)).*2.
Proof.
  rewrite filter_snd. unfold userRecords.
  by rewrite (map_to_list_filter_perm (λ kr, userId kr.2 = u) t).
Qed.

(** X17. [getAllProgress(userId)] leaves the table alone and returns the
    records of the user, each once, most recently started first: every
    record in the list started no earlier than the records after it, and a
    record is in the list exactly when it is stored with that [userId]. *)
Theorem getAllProgress_sorted u e t :
  ∃ rows, getAllProgress u e t = (t, inr rows) ∧
          StronglySorted startedAtDesc rows ∧
          rows ≡ₚ (map_to_list (userRecords u t)).*2 ∧
          length rows = size (userRecords u t) ∧
          (∀ r, r ∈ rows ↔ ∃ k, t !! k = Some r ∧ userId r = u).
Proof.
  rewrite getAllProgress_run. eexists. split; [done|].
  assert (Hperm : merge_sort startedAtDesc
                    (filter (λ r, userId r = u) (map_to_list t).*2)
                  ≡ₚ (map_to_list (userRecords u t)).*2).
  { by rewrite merge_sort_Permutation, user_rows_perm. }
  split; [|split; [exact Hperm | split]].
  - apply Sorted_StronglySorted; [apply startedAtDesc_trans|].
    apply (@Sorted_merge_sort _ startedAtDesc _ startedAtDesc_total).
  - by rewrite Hperm, length_fmap, length_map_to_list.
  - intros r. rewrite Hperm, list_elem_of_fmap. split.
    + intros ([k r0] & -> & Hin). apply elem_of_map_to_list in Hin.
      apply userRecords_lookup in Hin. exists k. done.
    + intros (k & Hk & Hu). exists (k, r). split; [done|].
      apply elem_of_map_to_list. by apply userRecords_lookup.
Qed.

(** X18. The list and the single lookup agree: on a table where rows sit
    under their own keys, a record is in [getAllProgress(u)] exactly when
    [getProgress(u, l)] returns it for some lesson [l]. *)
Theorem getAllProgress_getProgress u e t :
  keysMatch t →
  ∃ rows, getAllProgress u e t = (t, inr rows) ∧
          ∀ r, r ∈ rows ↔ ∃ l, getProgress u l e t = (t, inr (Some r)).
Proof.
  intros Hkeys.
  destruct (getAllProgress_sorted u e t) as (rows & Hrun & _ & _ & _ & Hin).
  exists rows. split; [exact Hrun|]. intros r. rewrite Hin. split.
  - intros ([u' l'] & Hk & Hu). destruct (Hkeys u' l' r Hk) as [Hu' _].
    assert (u' = u) as -> by congruence.
    exists l'. rewrite getProgress_run. by rewrite Hk.
  - intros (l & Hget). rewrite getProgress_run in Hget.
    injection Hget as Hk. destruct (Hkeys u l r Hk) as [Hu _].
    exists (u, l). done.
Qed.

Lemma getAllProgress_getProgress_witness :
  let t : Table :=
    {[ ("u", "l") := mkProgress "a" "u" "l" [0] 1 10 None 30 1 1 ]} in
  ∃ rows, getAllProgress "u" (mkEnv 20 "b") t = (t, inr rows) ∧
          ∀ r, r ∈ rows ↔ ∃ l, getProgress "u" l (mkEnv 20 "b") t = (t, inr (Some r)).
Proof.
  intros t. apply getAllProgress_getProgress.
  intros u l r Hr. apply lookup_singleton_Some in Hr as [[= <- <-] <-]. done.
Defined.

(** *** Invariants along sequences of writes *)

Lemma cursorPast_singleton n : cursorPast [n] (n + 1).
Proof. unfold cursorPast. simpl. lia. Qed.

Lemma recordsOk_runCall c e t :
  stepwise c = true → recordsOk t → recordsOk (runCall c e t).
Proof.
  intros Hstep Hok k r.
  destruct (decide (k = callKey c)) as [->|Hne];
    [|rewrite runCall_other_keys by done; apply Hok].
  destruct c as [data|u l n|u l s|u l]; simpl in *; [done| | |].
  - destruct (t !! (u, l)) as [r0|] eqn:Hr0.
    + destruct (Hok _ _ Hr0) as [Hcur Hnd].
      rewrite (exec_markStepComplete_existing u l n e t r0 Hr0), lookup_insert_eq.
      intros [= <-]. split.
      * by apply cursorPast_updatedSteps.
      * by apply NoDup_updatedSteps.
    + rewrite (exec_markStepComplete_fresh u l n e t Hr0), lookup_insert_eq.
      intros [= <-]. split; [apply cursorPast_singleton | apply NoDup_singleton].
  - destruct (t !! (u, l)) as [r0|] eqn:Hr0.
    + destruct (Hok _ _ Hr0) as [Hcur Hnd].
      rewrite (exec_addTimeSpent_existing u l s e t r0 Hr0), lookup_insert_eq.
      intros [= <-]. done.
    + rewrite (exec_addTimeSpent_fresh u l s e t Hr0), lookup_insert_eq.
      intros [= <-]. split; [done | apply NoDup_nil_2].
  - destruct (t !! (u, l)) as [r0|] eqn:Hr0.
    + destruct (Hok _ _ Hr0) as [Hcur Hnd].
      exec_by (markLessonComplete_existing u l e t r0 Hr0).
      rewrite lookup_insert_eq. intros [= <-]. done.
    + exec_by (markLessonComplete_missing u l e t Hr0). apply Hok.
Qed.

(** X19. Without [upsertProgress] the list invariants cannot be broken:
    after any sequence of [markStepComplete], [addTimeSpent] and
    [markLessonComplete] calls, on any keys and starting from a table whose
    records satisfy them (the empty table for one), every record has
    [currentStep ≥ max(completedSteps) + 1] and no duplicate in
    [completedSteps], the records created on the way included. *)
Theorem stepwise_calls_keep_invariants cs t :
  Forall (λ ce, stepwise ce.1 = true) cs →
  recordsOk t →
  recordsOk (runCalls cs t).
Proof.
  revert t. induction cs as [|[c e] cs IH]; intros t Hall Hok; simpl; [done|].
  apply Forall_cons in Hall as [Hc Hall].
  apply IH; [done|]. by apply recordsOk_runCall.
Qed.

Lemma stepwise_calls_keep_invariants_witness :
  recordsOk (runCalls [(CallStep "u" "l" 3, mkEnv 10 "a");
                       (CallTime "u" "m" 30, mkEnv 20 "b");
                       (CallStep "u" "l" 1, mkEnv 30 "c");
                       (CallComplete "u" "l", mkEnv 40 "d")] ∅).
Proof.
  apply stepwise_calls_keep_invariants.
  - repeat constructor.
  - intros k r Hr. by rewrite lookup_empty in Hr.
Defined.

(** *** Repeated upserts and runs of step completions *)

(** X20. An [upsertProgress] that carries no counter is idempotent: with
    only [currentStep] and/or [completedSteps] in the input, a second
    identical call leaves the table the first call left, whether the first
    call created the record or updated it. *)
Theorem upsertProgress_replace_idempotent data e1 e2 t :
  in_timeSpentSecs data = None →
  in_hintsUsed data = None →
  in_attempts data = None →
  exec (upsertProgress data) e2 (exec (upsertProgress data) e1 t)
  = exec (upsertProgress data) e1 t.
Proof.
  intros Ht Hh Ha.
  destruct (upsertProgress_step data e1 t) as (r1 & Hrun1 & _).
  rewrite (exec_eq _ _ _ _ _ Hrun1).
  assert (Hlk : <[(in_userId data, in_lessonId data) := r1]> t
                !! (in_userId data, in_lessonId data) = Some r1)
    by apply lookup_insert_eq.
  exec_by (upsertProgress_existing data e2 _ r1 Hlk).
  rewrite insert_insert_eq. f_equal.
  rewrite Ht, Hh, Ha. simpl. rewrite !Z.add_0_r.
  destruct (t !! (in_userId data, in_lessonId data)) as [r|] eqn:Hr.
  - rewrite (upsertProgress_existing data e1 t r Hr) in Hrun1. simpl in Hrun1.
    injection Hrun1 as _ <-. simpl.
    by destruct (in_completedSteps data), (in_currentStep data).
  - rewrite (upsertProgress_fresh data e1 t Hr) in Hrun1. simpl in Hrun1.
    injection Hrun1 as _ <-. simpl.
    by destruct (in_completedSteps data), (in_currentStep data).
Qed.

Lemma upsertProgress_replace_idempotent_witness :
  let data := mkUpsertInput "u" "l" (Some 4) (Some [0; 3]) None None None in
  exec (upsertProgress data) (mkEnv 20 "b") (exec (upsertProgress data) (mkEnv 10 "a") ∅)
  = exec (upsertProgress data) (mkEnv 10 "a") ∅.
Proof. intros data. apply upsertProgress_replace_idempotent; reflexivity. Defined.

(** A run of step completions on an existing record. *)
Lemma markStepComplete_run_existing u l (steps : list (Z * Env)) t r0 :
  t !! (u, l) = Some r0 →
  ∃ r, runCalls (map (λ ne, (CallStep u l ne.1, ne.2)) steps) t !! (u, l) = Some r ∧
       attempts r = attempts r0 + Z.of_nat (length steps) ∧
       (∀ s, s ∈ completedSteps r ↔ s ∈ completedSteps r0 ∨ s ∈ steps.*1) ∧
       (NoDup (completedSteps r0) → NoDup (completedSteps r)) ∧
       currentStep r0 ≤ currentStep r ∧
       (∀ s, s ∈ steps.*1 → s + 1 ≤ currentStep r) ∧
       (currentStep r = currentStep r0 ∨ ∃ s, s ∈ steps.*1 ∧ currentStep r = s + 1).
Proof.
  revert t r0. induction steps as [|[n e] steps IH]; intros t r0 Hr0.
  - exists r0. simpl. split; [done|]. split; [lia|]. split.
    { intros s. split; [auto | intros [?|Hin]; [done | by apply elem_of_nil in Hin]]. }
    split; [done|]. split; [lia|]. split; [|by left].
    intros s Hin. by apply elem_of_nil in Hin.
  - cbn [map runCalls runCall fst snd].
    rewrite (exec_markStepComplete_existing u l n e t r0 Hr0).
    match goal with |- context [<[(u, l) := ?row]> t] => set (r1 := row) end.
    destruct (IH (<[(u, l) := r1]> t) r1 (lookup_insert_eq _ _ _))
      as (r & Hlk & Hatt & Hel & Hnd & Hle & Hall & Hmax).
    subst r1. cbn [attempts currentStep completedSteps] in *.
    exists r. split; [exact Hlk|]. split.
    { rewrite Hatt. change (length ((n, e) :: steps)) with (S (length steps)). lia. }
    split.
    { intros s. rewrite Hel, updatedSteps_elem, fmap_cons, elem_of_cons. simpl.
      tauto. }
    split; [intros Hnd0; by apply Hnd, NoDup_updatedSteps|].
    split; [lia|]. split.
    + intros s. rewrite fmap_cons, elem_of_cons. simpl.
      intros [->|Hin]; [lia | by apply Hall].
    + rewrite fmap_cons. simpl.
      destruct Hmax as [Hmax | (s & Hin & Hs)].
      * destruct (Z.max_spec (currentStep r0) (n + 1)) as [[_ Hm]|[_ Hm]].
        -- right. exists n. split; [by left | lia].
        -- left. lia.
      * right. exists s. split; [by right | done].
Qed.

(** X21. Starting from a key without a record, after [markStepComplete]
    has been called for the steps [n1, ..., nk] (any order, repetitions
    allowed, [k ≥ 1]) the record holds exactly those steps, each once,
    [attempts] is [k], and [currentStep] is one more than the largest of
    them. *)
Theorem markStepComplete_run u l (steps : list (Z * Env)) t :
  t !! (u, l) = None →
  steps ≠ [] →
  ∃ r, runCalls (map (λ ne, (CallStep u l ne.1, ne.2)) steps) t !! (u, l) = Some r ∧
       attempts r = Z.of_nat (length steps) ∧
       (∀ s, s ∈ completedSteps r ↔ s ∈ steps.*1) ∧
       NoDup (completedSteps r) ∧
       (∀ s, s ∈ steps.*1 → s + 1 ≤ currentStep r) ∧
       (∃ s, s ∈ steps.*1 ∧ currentStep r = s + 1).
Proof.
  intros Hr0 Hne. destruct steps as [|[n e] steps]; [done|].
  cbn [map runCalls runCall fst snd].
  rewrite (exec_markStepComplete_fresh u l n e t Hr0).
  match goal with |- context [<[(u, l) := ?row]> t] => set (r1 := row) end.
  destruct (markStepComplete_run_existing u l steps (<[(u, l) := r1]> t) r1
              (lookup_insert_eq _ _ _))
    as (r & Hlk & Hatt & Hel & Hnd & Hle & Hall & Hmax).
  subst r1. cbn [attempts currentStep completedSteps] in *.
  exists r. split; [exact Hlk|]. split.
  { rewrite Hatt. change (length ((n, e) :: steps)) with (S (length steps)). lia. }
  split.
  { intros s. rewrite Hel, list_elem_of_singleton, fmap_cons, elem_of_cons. done. }
  split; [apply Hnd, NoDup_singleton|]. split.
  - intros s. rewrite fmap_cons, elem_of_cons. simpl.
    intros [->|Hin]; [lia | by apply Hall].
  - rewrite fmap_cons. simpl. destruct Hmax as [Hmax | (s & Hin & Hs)].
    + exists n. split; [by left | done].
    + exists s. split; [by right | done].
Qed.

Lemma markStepComplete_run_witness :
  let steps := [(2, mkEnv 10 "a"); (0, mkEnv 20 "b"); (2, mkEnv 30 "c")] in
  ∃ r, runCalls (map (λ ne, (CallStep "u" "l" ne.1, ne.2)) steps) ∅ !! ("u", "l")
       = Some r ∧
       attempts r = Z.of_nat (length steps) ∧
       (∀ s, s ∈ completedSteps r ↔ s ∈ steps.*1) ∧
       NoDup (completedSteps r) ∧
       (∀ s, s ∈ steps.*1 → s + 1 ≤ currentStep r) ∧
       (∃ s, s ∈ steps.*1 ∧ currentStep r = s + 1).
Proof.
  intros steps. apply markStepComplete_run; [apply lookup_empty | discriminate].
Defined.
